(** * MaxCut with QAOA: a shallow embedding of [05_QAOA.ipynb]

    The notebook solves MaxCut with a hybrid loop: [Build_QAOA] builds a
    parameterised circuit, a simulator returns a histogram of measured
    bit-strings, [get_expval] reduces the histogram to a number with
    [maxcut_cost], and [scipy.optimize.minimize] drives [run_QAOA].

    Python values are embedded as follows.
    - [int] is [Z]; a [str] is a [list ascii] (one entry per character);
    - [float] angles are binary64 numbers ([PrimFloat.float]);
    - the quotient [cost/total_shots] of two Python integers is kept as the
      exact rational ([Q]) that Python's true division rounds to binary64;
      statements about it are chosen so that they also hold of the rounded
      value;
    - qiskit's [QuantumCircuit] is a record of the appended operations,
      with the argument checks of the methods that the notebook calls;
    - a [dict] that is only iterated is an association list in insertion
      order; lists are [list];
    - a raised exception is the [Raise] branch of [result];
    - the module-level list [expval_list] is a field of an explicit store. *)

From Stdlib Require Import List ZArith QArith Lia Bool Ascii String PrimFloat.
From Stdlib Require Import Permutation.
Import ListNotations.

Set Warnings "-inexact-float".
Local Open Scope Z_scope.

(** ** Exceptions and results *)

Module Py.

(** The exceptions that matter here.  [IndexError] and [ZeroDivisionError]
    are raised by the interpreter itself (subscripting, [/]).
    [InvalidConfiguration] stands for a dedicated rejection of a zero-shot
    histogram; [BackendError] for a failure inside the simulator call;
    [CircuitError] is what qiskit raises for a bad gate argument. *)
Inductive exn : Type :=
| IndexError
| ZeroDivisionError
| CircuitError
| InvalidConfiguration
| BackendError.

Inductive result (A : Type) : Type :=
| Ok (a : A)
| Raise (e : exn).

Arguments Ok {A} a.
Arguments Raise {A} e.

Definition bind {A B : Type} (m : result A) (k : A -> result B) : result B :=
  match m with
  | Ok a => k a
  | Raise e => Raise e
  end.

Definition is_ok {A : Type} (m : result A) : bool :=
  match m with Ok _ => true | Raise _ => false end.

(** [l[i]]: Python subscripting; a negative index counts from the end. *)
Definition getitem {A : Type} (l : list A) (i : Z) : result A :=
  let n := Z.of_nat (List.length l) in
  let k := if i <? 0 then i + n else i in
  if (k <? 0) || (n <=? k) then Raise IndexError
  else match nth_error l (Z.to_nat k) with
       | Some a => Ok a
       | None => Raise IndexError
       end.

(** [l[:k]] and [l[k:]]: Python slicing, which clips instead of raising. *)
Definition slice_bound {A : Type} (l : list A) (k : Z) : nat :=
  let n := Z.of_nat (List.length l) in
  Z.to_nat (Z.min n (if k <? 0 then Z.max 0 (k + n) else k)).

Definition slice_to {A : Type} (l : list A) (k : Z) : list A :=
  firstn (slice_bound l k) l.

Definition slice_from {A : Type} (l : list A) (k : Z) : list A :=
  skipn (slice_bound l k) l.

(** [range(n)] *)
Definition range (n : Z) : list Z :=
  map Z.of_nat (seq 0 (Z.to_nat n)).

End Py.

Import Py.

Declare Scope py_scope.
Delimit Scope py_scope with py.
Notation "x <- m ;; k" := (bind m (fun x => k))
  (at level 61, m at next level, right associativity) : py_scope.
Local Open Scope py_scope.

(** ** The problem instance *)

(** [graph = {'nodes': nodes, 'edges': edges}] *)
Record graph : Type := mkGraph {
  nodes : list Z;
  edges : list (Z * Z)
}.

(** A measured state, as the simulator prints it. *)
Definition bitstring : Type := list ascii.

Definition bits (s : string) : bitstring := list_ascii_of_string s.

(** [bitstring[::-1]] *)
Definition reversed (b : bitstring) : bitstring := rev b.

(** ** The cost function *)

(** One pass of the loop body of [maxcut_cost]: the two subscripts, the
    comparison, and the update of [value]. *)
Definition maxcut_step (b : bitstring) (value : Z) (e : Z * Z) : result Z :=
  let (i, j) := e in
  bi <- getitem b i ;;
  bj <- getitem b j ;;
  if Ascii.eqb bi bj then Ok value else Ok (value + (-1)).

Fixpoint maxcut_loop (b : bitstring) (es : list (Z * Z)) (value : Z)
  : result Z :=
  match es with
  | [] => Ok value
  | e :: es' => v <- maxcut_step b value e ;; maxcut_loop b es' v
  end.

Definition maxcut_cost (b : bitstring) (g : graph) : result Z :=
  let value := 0 in
  let b := reversed b in
  maxcut_loop b (edges g) value.

(** The running example of the notebook. *)
Definition graph4 : graph :=
  mkGraph [0; 1; 2; 3] [(0, 1); (1, 2); (2, 3); (0, 3)].

(** ** The expectation value *)

(** [a / b] on Python integers: [ZeroDivisionError] on a zero divisor,
    otherwise the exact quotient.  Python returns the binary64 number
    nearest to this quotient, and raises [OverflowError] when the quotient
    is beyond the binary64 range (integers of more than 300 digits); the
    rounding and that exception are not represented. *)
Definition truediv (a b : Z) : result Q :=
  if b =? 0 then Raise ZeroDivisionError
  else Ok (inject_Z a / inject_Z b)%Q.

(** The histogram returned by [get_counts()], in iteration order. *)
Definition counts : Type := list (bitstring * Z).

(** One pass of the loop body of [get_expval], on the pair
    [(cost, total_shots)]. *)
Definition expval_step (g : graph) (acc : Z * Z) (item : bitstring * Z)
  : result (Z * Z) :=
  let (cost, total_shots) := acc in
  let (b, count) := item in
  c <- maxcut_cost b g ;;
  Ok (cost + c * count, total_shots + count).

Fixpoint expval_loop (g : graph) (items : counts) (acc : Z * Z)
  : result (Z * Z) :=
  match items with
  | [] => Ok acc
  | item :: items' => acc' <- expval_step g acc item ;; expval_loop g items' acc'
  end.

Definition get_expval (cs : counts) (g : graph) : result Q :=
  let cost := 0 in
  let total_shots := 0 in
  acc <- expval_loop g cs (cost, total_shots) ;;
  truediv (fst acc) (snd acc).

(** ** The circuit *)

(** What a [QuantumCircuit] records: one entry per appended operation.  A
    gate method called on [range(n)] appends one operation per qubit;
    [barrier()] without arguments spans the whole register. *)
Inductive instruction : Type :=
| H (q : Z)
| CX (control target : Z)
| RZ (theta : float) (q : Z)
| RX (theta : float) (q : Z)
| Barrier
| Measure (q c : Z).

Record circuit : Type := mkCircuit {
  num_qubits : Z;
  num_clbits : Z;
  data : list instruction
}.

Definition QuantumCircuit (nq nc : Z) : circuit := mkCircuit nq nc [].

Definition append (qc : circuit) (ops : list instruction) : circuit :=
  mkCircuit (num_qubits qc) (num_clbits qc) (data qc ++ ops).

(** Qiskit's argument checks, as the gate methods called below apply them.
    An integer [i] names the qubit [qc.qubits[i]]: a negative one counts
    from the end of the register, and one outside the register raises
    [CircuitError].  A method called on an empty list of qubits raises
    [CircuitError], and so does a two-qubit gate whose two arguments name
    the same qubit. *)
Definition resolved (n i : Z) : Z := if i <? 0 then i + n else i.

Definition resolve_bit (n i : Z) : result Z :=
  let k := resolved n i in
  if (k <? 0) || (n <=? k) then Raise CircuitError else Ok k.

Fixpoint resolve_each (n : Z) (qs : list Z) : result (list Z) :=
  match qs with
  | [] => Ok []
  | q :: qs' =>
      k <- resolve_bit n q ;;
      ks <- resolve_each n qs' ;;
      Ok (k :: ks)
  end.

Definition resolve_bits (n : Z) (qs : list Z) : result (list Z) :=
  match qs with
  | [] => Raise CircuitError
  | _ :: _ => resolve_each n qs
  end.

Definition qc_h (qc : circuit) (qs : list Z) : result circuit :=
  ks <- resolve_bits (num_qubits qc) qs ;;
  Ok (append qc (map H ks)).

Definition qc_cx (qc : circuit) (a b : Z) : result circuit :=
  ka <- resolve_bit (num_qubits qc) a ;;
  kb <- resolve_bit (num_qubits qc) b ;;
  if ka =? kb then Raise CircuitError else Ok (append qc [CX ka kb]).

Definition qc_rz (qc : circuit) (theta : float) (q : Z) : result circuit :=
  k <- resolve_bit (num_qubits qc) q ;;
  Ok (append qc [RZ theta k]).

Definition qc_rx (qc : circuit) (theta : float) (qs : list Z)
  : result circuit :=
  ks <- resolve_bits (num_qubits qc) qs ;;
  Ok (append qc (map (RX theta) ks)).

Definition qc_barrier (qc : circuit) : circuit :=
  append qc [Barrier].

(** [qc.measure(qs, cs)], called with two lists of the same length: qubit
    [qs[k]] is measured into classical bit [cs[k]]. *)
Definition qc_measure (qc : circuit) (qs cs : list Z) : result circuit :=
  ks <- resolve_bits (num_qubits qc) qs ;;
  bs <- resolve_bits (num_clbits qc) cs ;;
  Ok (append qc (map (fun kb => Measure (fst kb) (snd kb)) (combine ks bs))).

(** The body of [for ab in graph['edges']] in layer [i]. *)
Definition edge_body (gammas : list float) (i : Z) (qc : circuit)
  (ab : Z * Z) : result circuit :=
  let qc := qc_barrier qc in
  qc <- qc_cx qc (fst ab) (snd ab) ;;
  gi <- getitem gammas i ;;
  qc <- qc_rz qc (0.5 * gi)%float (snd ab) ;;
  qc_cx qc (fst ab) (snd ab).

Fixpoint edge_loop (gammas : list float) (i : Z) (es : list (Z * Z))
  (qc : circuit) : result circuit :=
  match es with
  | [] => Ok qc
  | ab :: es' => qc' <- edge_body gammas i qc ab ;; edge_loop gammas i es' qc'
  end.

(** The body of [for i in range(layers)]. *)
Definition layer_body (g : graph) (gammas betas : list float)
  (num_qubits : Z) (qc : circuit) (i : Z) : result circuit :=
  qc <- edge_loop gammas i (edges g) qc ;;
  let qc := qc_barrier qc in
  bi <- getitem betas i ;;
  qc_rx qc bi (range num_qubits).

Fixpoint layer_loop (g : graph) (gammas betas : list float)
  (num_qubits : Z) (layer_ids : list Z) (qc : circuit) : result circuit :=
  match layer_ids with
  | [] => Ok qc
  | i :: rest =>
      qc' <- layer_body g gammas betas num_qubits qc i ;;
      layer_loop g gammas betas num_qubits rest qc'
  end.

Definition Build_QAOA (g : graph) (gammas betas : list float) (layers : Z)
  : result circuit :=
  let num_qubits := Z.of_nat (List.length (nodes g)) in
  let qc := QuantumCircuit num_qubits num_qubits in
  qc <- qc_h qc (range num_qubits) ;;
  qc <- layer_loop g gammas betas num_qubits (range layers) qc ;;
  qc_measure qc (range num_qubits) (range num_qubits).

(** ** The objective function and the optimisation run *)

Section Driver.

(** The collaborators outside the notebook.  [Backend] is the state of the
    simulator (its random generator included); one execution consumes it
    and returns a histogram or fails.  [transpile] rewrites a circuit for
    the backend.  [propose] is the search strategy of
    [scipy.optimize.minimize]: from the method name, the initial guess and
    the evaluations made so far it picks the next point, or stops;
    [max_calls] bounds its calls for a given [maxiter]. *)
Variable Backend : Type.
Variable transpile : circuit -> circuit.
Variable backend_run : Backend -> circuit -> Z -> result counts * Backend.
Variable propose :
  string -> list float -> list (list float * Q) -> option (list float).
Variable max_calls : string -> Z -> nat.

(** The mutable state shared by every call: the module-level list
    [expval_list] and the simulator. *)
Record store : Type := mkStore {
  expval_list : list Q;
  backend : Backend
}.

(** The environment captured by the closure [run_QAOA]; its [backend] is
    the simulator held in the store. *)
Record objective : Type := mkObjective {
  fn_graph : graph;
  fn_shots : Z;
  fn_layers : Z
}.

Definition get_QAOA_func (g : graph) (shots layers : Z) (st : store)
  : objective * store :=
  let st := mkStore [] (backend st) in
  (mkObjective g shots layers, st).

(** The body of [run_QAOA] below its two slices: build, transpile, run,
    reduce, record. *)
Definition evaluate_angles (f : objective) (gammas betas : list float)
  (st : store) : result Q * store :=
  match Build_QAOA (fn_graph f) gammas betas (fn_layers f) with
  | Raise e => (Raise e, st)
  | Ok qc =>
      let qc_transpiled := transpile qc in
      let (r, sim) := backend_run (backend st) qc_transpiled (fn_shots f) in
      let st := mkStore (expval_list st) sim in
      match r with
      | Raise e => (Raise e, st)
      | Ok cs =>
          match get_expval cs (fn_graph f) with
          | Raise e => (Raise e, st)
          | Ok expval =>
              (Ok expval, mkStore (expval_list st ++ [expval]) (backend st))
          end
      end
  end.

Definition run_QAOA (f : objective) (angles : list float) (st : store)
  : result Q * store :=
  let gammas := slice_to angles (fn_layers f) in
  let betas := slice_from angles (fn_layers f) in
  evaluate_angles f gammas betas st.

(** [minimize(fun=func, x0=x0, method=method, ...)]: at most [fuel] calls
    of the objective, each at the point the strategy proposes; an
    exception raised by the objective ends the run. *)
Fixpoint minimize (fuel : nat) (func : objective) (method : string)
  (x0 : list float) (history : list (list float * Q)) (st : store)
  : result (list (list float * Q)) * store :=
  match fuel with
  | O => (Ok history, st)
  | S fuel' =>
      match propose method x0 history with
      | None => (Ok history, st)
      | Some x =>
          match run_QAOA func x st with
          | (Raise e, st') => (Raise e, st')
          | (Ok v, st') =>
              minimize fuel' func method x0 (history ++ [(x, v)]) st'
          end
      end
  end.

Definition gamma_0 : float := 3.147%float.
Definition beta_0 : float := 3.147%float.

(** [x0 = [gamma_0 for i in range(layers)] + [beta_0 for i in range(layers)]] *)
Definition initial_guess (layers : Z) : list float :=
  map (fun _ => gamma_0) (range layers) ++ map (fun _ => beta_0) (range layers).

Definition optimize_QAOA (g : graph) (shots iterations layers : Z)
  (method : string) (st : store)
  : result (list (list float * Q)) * store :=
  let (func, st) := get_QAOA_func g shots layers st in
  let x0 := initial_guess layers in
  minimize (max_calls method iterations) func method x0 [] st.

End Driver.

Arguments expval_list {Backend} s.
Arguments backend {Backend} s.
Arguments mkStore {Backend} expval_list backend.
Arguments get_QAOA_func {Backend} g shots layers st.
Arguments evaluate_angles {Backend} transpile backend_run f gammas betas st.
Arguments run_QAOA {Backend} transpile backend_run f angles st.
Arguments minimize {Backend} transpile backend_run propose
  fuel func method x0 history st.
Arguments optimize_QAOA {Backend} transpile backend_run propose max_calls
  g shots iterations layers method st.

(** A stand-in simulator for examples: every shot measures [0101].  The
    stand-in minimiser evaluates the initial guess twice and stops. *)
Definition constant_backend (sim : unit) (qc : circuit) (shots : Z)
  : result counts * unit :=
  (Ok [(bits "0101", shots)], sim).

Definition two_calls (method : string) (x0 : list float)
  (history : list (list float * Q)) : option (list float) :=
  if (List.length history <? 2)%nat then Some x0 else None.

Definition maxiter_calls (method : string) (iterations : Z) : nat :=
  Z.to_nat iterations.

(** ** Reading out the solution *)

(** [most_probable_solution[::-1]] and the two index lists built from it. *)
Definition solution_configuration (most_probable_solution : bitstring)
  : bitstring :=
  reversed most_probable_solution.

Fixpoint indices_from (c : ascii) (k : Z) (s : bitstring) : list Z :=
  match s with
  | [] => []
  | v :: s' =>
      if Ascii.eqb v c then k :: indices_from c (k + 1) s'
      else indices_from c (k + 1) s'
  end.

Definition indices_0 (s : bitstring) : list Z := indices_from "0"%char 0 s.
Definition indices_1 (s : bitstring) : list Z := indices_from "1"%char 0 s.

(** ** Vocabulary of the properties *)

(** [i] is a valid non-negative position in a sequence of [n] entries. *)
Definition in_range (n : nat) (i : Z) : bool :=
  (0 <=? i) && (i <? Z.of_nat n).

(** Every edge endpoint of [g] is a position of a string of [n] bits. *)
Definition covers_len (n : nat) (g : graph) : bool :=
  forallb (fun e => in_range n (fst e) && in_range n (snd e)) (edges g).

Definition covers (b : bitstring) (g : graph) : bool :=
  covers_len (List.length b) g.

(** The bit of vertex [i] in the assignment [s]. *)
Definition bit_at (s : bitstring) (i : Z) : ascii :=
  nth (Z.to_nat i) s "0"%char.

(** An edge is cut by [s] when its endpoint bits differ. *)
Definition is_cut (s : bitstring) (e : Z * Z) : bool :=
  negb (Ascii.eqb (bit_at s (fst e)) (bit_at s (snd e))).

Definition edge_term (s : bitstring) (e : Z * Z) : Z :=
  if is_cut s e then -1 else 0.

Definition sum_Z (l : list Z) : Z := fold_right Z.add 0 l.

Definition cut_edges (s : bitstring) (g : graph) : list (Z * Z) :=
  filter (is_cut s) (edges g).

(** The cost as a sum over the edges, read on the reversed string. *)
Definition cut_value (b : bitstring) (g : graph) : Z :=
  sum_Z (map (edge_term (reversed b)) (edges g)).

(** Bit-strings and the global bit flip. *)
Definition is_bit (c : ascii) : bool :=
  Ascii.eqb c "0"%char || Ascii.eqb c "1"%char.

Definition flip_bit (c : ascii) : ascii :=
  if Ascii.eqb c "0"%char then "1"%char
  else if Ascii.eqb c "1"%char then "0"%char
  else c.

Definition complement (b : bitstring) : bitstring := map flip_bit b.

(** One bit per vertex. *)
Definition is_bit_assignment (g : graph) (b : bitstring) : bool :=
  (List.length b =? List.length (nodes g))%nat && forallb is_bit b.

(** All bit-strings of a given length, and the costs they reach. *)
Fixpoint all_bitstrings (n : nat) : list bitstring :=
  match n with
  | O => [[]]
  | S n' =>
      flat_map (fun b => [("0"%char :: b); ("1"%char :: b)]) (all_bitstrings n')
  end.

Definition achievable_costs (g : graph) : list Z :=
  flat_map (fun b => match maxcut_cost b g with
                     | Ok v => [v]
                     | Raise _ => []
                     end)
           (all_bitstrings (List.length (nodes g))).

Definition extremum (pick : Z -> Z -> Z) (l : list Z) : option Z :=
  match l with
  | [] => None
  | x :: l' => Some (fold_left pick l' x)
  end.

Definition min_cost (g : graph) : option Z := extremum Z.min (achievable_costs g).
Definition max_cost (g : graph) : option Z := extremum Z.max (achievable_costs g).


Definition total_count (cs : counts) : Z := sum_Z (map snd cs).

(** Every observed string covers the edge endpoints. *)
Definition all_cover (g : graph) (cs : counts) : bool :=
  forallb (fun item => covers (fst item) g) cs.


(** Edge endpoints are vertex positions [0 .. len(nodes) - 1]. *)
Definition valid_graph (g : graph) : bool :=
  covers_len (List.length (nodes g)) g.

(** An edge that both [cx] calls accept on a register of [n] qubits: its
    endpoints name two different qubits. *)
Definition is_qubit (n i : Z) : bool :=
  (0 <=? resolved n i) && (resolved n i <? n).

Definition good_edge (n : Z) (e : Z * Z) : bool :=
  is_qubit n (fst e) && is_qubit n (snd e)
  && negb (resolved n (fst e) =? resolved n (snd e)).

(** A graph with at least one vertex whose edges are all accepted. *)
Definition buildable (g : graph) : bool :=
  let n := Z.of_nat (List.length (nodes g)) in
  (1 <=? n) && forallb (good_edge n) (edges g).

(** What [Build_QAOA] needs of the graph for a given layer count: with no
    layer to build the edges are never looked at. *)
Definition builds (g : graph) (layers : Z) : bool :=
  let n := Z.of_nat (List.length (nodes g)) in
  (1 <=? n) && ((layers <=? 0) || forallb (good_edge n) (edges g)).

(** The circuit, described block by block. *)
Definition cost_block (n : Z) (gamma : float) (ab : Z * Z)
  : list instruction :=
  [Barrier; CX (resolved n (fst ab)) (resolved n (snd ab));
   RZ (0.5 * gamma)%float (resolved n (snd ab));
   CX (resolved n (fst ab)) (resolved n (snd ab))].

Definition mixer_block (n : Z) (beta : float) : list instruction :=
  Barrier :: map (RX beta) (range n).

Definition qaoa_layer (g : graph) (n : Z) (gamma beta : float)
  : list instruction :=
  flat_map (cost_block n gamma) (edges g) ++ mixer_block n beta.

Definition layer_angle (angles : list float) (l : nat) : float :=
  nth l angles 0%float.

Definition qaoa_description (g : graph) (gammas betas : list float)
  (layers : Z) : list instruction :=
  let n := Z.of_nat (List.length (nodes g)) in
  map H (range n)
  ++ flat_map (fun l => qaoa_layer g n (layer_angle gammas l)
                                   (layer_angle betas l))
              (seq 0 (Z.to_nat layers))
  ++ map (fun q => Measure q q) (range n).

(** ** Further vocabulary *)

(** [i] is a valid Python subscript of a sequence of [n] entries: a
    position, or a negative offset from the end. *)
Definition indexable (n : nat) (i : Z) : bool :=
  (- Z.of_nat n <=? i) && (i <? Z.of_nat n).

Definition indexes_all (b : bitstring) (g : graph) : bool :=
  forallb (fun e => indexable (List.length b) (fst e)
                    && indexable (List.length b) (snd e)) (edges g).

(** The entry that a valid subscript [i] selects. *)
Definition subscript_bit (s : bitstring) (i : Z) : ascii :=
  nth (Z.to_nat (if i <? 0 then i + Z.of_nat (List.length s) else i)) s
      "0"%char.

Definition subscript_term (s : bitstring) (e : Z * Z) : Z :=
  if Ascii.eqb (subscript_bit s (fst e)) (subscript_bit s (snd e))
  then 0 else -1.

(** The same edges with the two endpoints of each exchanged. *)
Definition swap_edges (g : graph) : graph :=
  mkGraph (nodes g) (map (fun e => (snd e, fst e)) (edges g)).

(** Every occurrence count multiplied by [k]. *)
Definition scale_counts (k : Z) (cs : counts) : counts :=
  map (fun item => (fst item, k * snd item)) cs.

(** [max(counts, key=counts.get)] on a histogram with distinct keys: the
    first key, in iteration order, whose count no other count exceeds.
    [None] stands for the [ValueError] that [max] raises on an empty
    histogram. *)
Fixpoint max_from (best : bitstring * Z) (cs : counts) : bitstring * Z :=
  match cs with
  | [] => best
  | item :: cs' =>
      if snd best <? snd item then max_from item cs' else max_from best cs'
  end.

Definition most_probable (cs : counts) : option bitstring :=
  match cs with
  | [] => None
  | item :: cs' => Some (fst (max_from item cs'))
  end.

(** An edge joins the two printed index lists. *)
Definition mem_Z (k : Z) (l : list Z) : bool := existsb (Z.eqb k) l.

Definition crossing (zeros ones : list Z) (e : Z * Z) : bool :=
  (mem_Z (fst e) zeros && mem_Z (snd e) ones)
  || (mem_Z (fst e) ones && mem_Z (snd e) zeros).

(** The qubits an operation acts on ([Barrier] names none). *)
Definition instr_qubits (op : instruction) : list Z :=
  match op with
  | H q => [q]
  | CX a b => [a; b]
  | RZ _ q => [q]
  | RX _ q => [q]
  | Barrier => []
  | Measure q _ => [q]
  end.

(** The value of [maxcut_cost] on a string whose subscripts are all valid. *)
Definition subscript_cost (b : bitstring) (g : graph) : Z :=
  sum_Z (map (subscript_term (reversed b)) (edges g)).

Definition subscript_weighted (cs : counts) (g : graph) : Z :=
  sum_Z (map (fun item => subscript_cost (fst item) g * snd item) cs).

(** Every observed string can be subscripted at every edge endpoint. *)
Definition all_index (g : graph) (cs : counts) : bool :=
  forallb (fun item => indexes_all (fst item) g) cs.

Definition nonneg_counts (cs : counts) : bool :=
  forallb (fun item => 0 <=? snd item) cs.

(** Every observed string has cost [c]. *)
Definition all_cost (c : Z) (g : graph) (cs : counts) : bool :=
  forallb (fun item => subscript_cost (fst item) g =? c) cs.

(** The histogram without its entries of zero count. *)
Definition drop_zero_counts (cs : counts) : counts :=
  filter (fun item => negb (snd item =? 0)) cs.

(** Two outcomes agree: the same exception, or equal rationals. *)
Definition same_outcome (r r' : result Q) : Prop :=
  match r, r' with
  | Ok q, Ok q' => (q == q')%Q
  | Raise e, Raise e' => e = e'
  | _, _ => False
  end.

(** Layer [l] finds the angles it reads: [betas[l]] always, [gammas[l]]
    when the graph has an edge. *)
Definition no_edges (g : graph) : bool :=
  match edges g with [] => true | _ :: _ => false end.

Definition layer_reads (g : graph) (gammas betas : list float) (l : nat)
  : bool :=
  (no_edges g || (l <? List.length gammas)%nat)
  && (l <? List.length betas)%nat.

Definition enough_angles (g : graph) (gammas betas : list float)
  (layers : Z) : bool :=
  (no_edges g || (layers <=? Z.of_nat (List.length gammas)))
  && (layers <=? Z.of_nat (List.length betas)).

(** * Properties *)

Example maxcut_cost_0101 : maxcut_cost (bits "0101") graph4 = Ok (-4).
Proof. reflexivity. Qed.

Example maxcut_cost_0011 : maxcut_cost (bits "0011") graph4 = Ok (-2).
Proof. reflexivity. Qed.

Example maxcut_cost_short : maxcut_cost (bits "01") graph4 = Raise IndexError.
Proof. reflexivity. Qed.

Example min_cost_graph4 : min_cost graph4 = Some (-4).
Proof. reflexivity. Qed.

Example max_cost_graph4 : max_cost graph4 = Some 0.
Proof. reflexivity. Qed.

Example get_expval_example :
  get_expval [(bits "0101", 3); (bits "0011", 1)] graph4 = Ok (-14 # 4)%Q.
Proof. reflexivity. Qed.

(** ** Subscripting *)

Lemma in_range_spec (n : nat) (i : Z) :
  in_range n i = true <-> 0 <= i < Z.of_nat n.
Proof.
  unfold in_range. rewrite andb_true_iff, Z.leb_le, Z.ltb_lt. tauto.
Qed.

Lemma getitem_in_range (s : bitstring) (i : Z) :
  in_range (List.length s) i = true -> getitem s i = Ok (bit_at s i).
Proof.
  intros Hi. apply in_range_spec in Hi. unfold getitem, bit_at.
  destruct (Z.ltb_spec i 0) as [Hneg | _]; [lia |].
  destruct (Z.ltb_spec i 0) as [Hneg | _]; [lia |].
  destruct (Z.leb_spec (Z.of_nat (List.length s)) i) as [Hbig | _]; [lia |].
  cbn [orb].
  assert (Hlt : (Z.to_nat i < List.length s)%nat) by lia.
  rewrite (nth_error_nth' s "0"%char Hlt). reflexivity.
Qed.

Lemma getitem_map {A B : Type} (f : A -> B) (l : list A) (i : Z) :
  getitem (map f l) i = (a <- getitem l i ;; Ok (f a)).
Proof.
  unfold getitem. rewrite length_map.
  destruct ((_ <? 0) || (_ <=? _)); [reflexivity |].
  rewrite nth_error_map.
  destruct (nth_error l _); reflexivity.
Qed.

(** ** The cost loop *)

Lemma maxcut_step_in_range (s : bitstring) (v : Z) (e : Z * Z) :
  in_range (List.length s) (fst e) = true ->
  in_range (List.length s) (snd e) = true ->
  maxcut_step s v e = Ok (v + edge_term s e).
Proof.
  destruct e as [i j]. cbn [fst snd]. intros Hi Hj.
  unfold maxcut_step, edge_term, is_cut. cbn [fst snd].
  rewrite (getitem_in_range _ _ Hi), (getitem_in_range _ _ Hj). cbn [bind].
  destruct (Ascii.eqb (bit_at s i) (bit_at s j)); cbn [negb];
    f_equal; lia.
Qed.

(** The accumulator loop computes the sum of the per-edge terms. *)
Lemma maxcut_loop_sum (s : bitstring) (es : list (Z * Z)) :
  forall v,
    forallb (fun e => in_range (List.length s) (fst e)
                      && in_range (List.length s) (snd e)) es = true ->
    maxcut_loop s es v = Ok (v + sum_Z (map (edge_term s) es)).
Proof.
  induction es as [| e es IH]; intros v Hcov.
  - cbn. f_equal. lia.
  - cbn [forallb] in Hcov. apply andb_true_iff in Hcov as [He Hes].
    apply andb_true_iff in He as [Hi Hj].
    cbn [maxcut_loop]. rewrite (maxcut_step_in_range _ _ _ Hi Hj).
    cbn [bind]. rewrite (IH _ Hes). cbn [map sum_Z fold_right].
    f_equal. unfold sum_Z. lia.
Qed.

(** Each pass leaves [value] unchanged or lowers it by one. *)
Lemma maxcut_step_bounds (s : bitstring) (v v' : Z) (e : Z * Z) :
  maxcut_step s v e = Ok v' -> v - 1 <= v' <= v.
Proof.
  destruct e as [i j]. unfold maxcut_step.
  destruct (getitem s i) as [bi |]; cbn [bind]; [| discriminate].
  destruct (getitem s j) as [bj |]; cbn [bind]; [| discriminate].
  destruct (Ascii.eqb bi bj); intros [= <-]; lia.
Qed.

Lemma maxcut_loop_bounds (s : bitstring) (es : list (Z * Z)) :
  forall v v',
    maxcut_loop s es v = Ok v' ->
    v - Z.of_nat (List.length es) <= v' <= v.
Proof.
  induction es as [| e es IH]; intros v v' Hrun.
  - cbn in Hrun. injection Hrun as <-. cbn. lia.
  - cbn [maxcut_loop] in Hrun.
    destruct (maxcut_step s v e) as [v1 |] eqn:Hstep; cbn [bind] in Hrun;
      [| discriminate].
    apply maxcut_step_bounds in Hstep. apply IH in Hrun.
    cbn [List.length]. lia.
Qed.

Lemma sum_edge_term_cut (s : bitstring) (es : list (Z * Z)) :
  sum_Z (map (edge_term s) es)
  = - Z.of_nat (List.length (filter (is_cut s) es)).
Proof.
  induction es as [| e es IH]; [reflexivity |].
  cbn [map sum_Z fold_right filter]. fold (sum_Z (map (edge_term s) es)).
  rewrite IH. unfold edge_term.
  destruct (is_cut s e); cbn [List.length]; lia.
Qed.

Lemma covers_reversed (b : bitstring) (g : graph) :
  covers b g = true ->
  forallb (fun e => in_range (List.length (reversed b)) (fst e)
                    && in_range (List.length (reversed b)) (snd e))
          (edges g) = true.
Proof.
  unfold covers, covers_len, reversed. rewrite length_rev. trivial.
Qed.

Lemma maxcut_cost_cut_value (b : bitstring) (g : graph) :
  covers b g = true -> maxcut_cost b g = Ok (cut_value b g).
Proof.
  intros Hcov. unfold maxcut_cost, cut_value.
  rewrite (maxcut_loop_sum _ _ 0 (covers_reversed _ _ Hcov)).
  f_equal.
Qed.

Lemma cut_value_bounds (b : bitstring) (g : graph) :
  - Z.of_nat (List.length (edges g)) <= cut_value b g <= 0.
Proof.
  unfold cut_value. rewrite sum_edge_term_cut.
  pose proof (filter_length_le (is_cut (reversed b)) (edges g)). lia.
Qed.

(** C2.  On a bit-string that covers every edge endpoint, [maxcut_cost]
    reverses the string and returns the sum over the edges of -1 for an edge
    whose endpoint bits differ and 0 otherwise, which is the negated number
    of cut edges of the reversed string. *)
Theorem maxcut_cost_negated_cut (b : bitstring) (g : graph) :
  covers b g = true ->
  maxcut_cost b g = Ok (sum_Z (map (edge_term (reversed b)) (edges g)))
  /\ maxcut_cost b g
     = Ok (- Z.of_nat (List.length (cut_edges (reversed b) g))).
Proof.
  intros Hcov. pose proof (maxcut_cost_cut_value b g Hcov) as Hrun.
  split; [exact Hrun |].
  rewrite Hrun. unfold cut_value, cut_edges.
  now rewrite sum_edge_term_cut.
Qed.

Lemma maxcut_cost_negated_cut_witness :
  covers (bits "0111") graph4 = true
  /\ maxcut_cost (bits "0111") graph4 = Ok (-2)
  /\ cut_edges (reversed (bits "0111")) graph4 = [(2, 3); (0, 3)].
Proof.
  split; [reflexivity |].
  destruct (maxcut_cost_negated_cut (bits "0111") graph4 eq_refl) as [_ Hcut].
  split; [exact Hcut | reflexivity].
Defined.

(** ** Uniform assignments *)

Lemma bit_at_repeat (c : ascii) (n : nat) (i : Z) :
  in_range n i = true -> bit_at (repeat c n) i = c.
Proof.
  intros Hi. apply in_range_spec in Hi. unfold bit_at.
  apply nth_repeat_lt. lia.
Qed.

Lemma sum_edge_term_repeat (c : ascii) (n : nat) (es : list (Z * Z)) :
  forallb (fun e => in_range n (fst e) && in_range n (snd e)) es = true ->
  sum_Z (map (edge_term (repeat c n)) es) = 0.
Proof.
  induction es as [| e es IH]; intros Hcov; [reflexivity |].
  cbn [forallb] in Hcov. apply andb_true_iff in Hcov as [He Hes].
  apply andb_true_iff in He as [Hi Hj].
  cbn [map sum_Z fold_right]. fold (sum_Z (map (edge_term (repeat c n)) es)).
  rewrite (IH Hes). unfold edge_term, is_cut.
  rewrite (bit_at_repeat _ _ _ Hi), (bit_at_repeat _ _ _ Hj).
  rewrite Ascii.eqb_refl. reflexivity.
Qed.

Lemma maxcut_cost_repeat (c : ascii) (n : nat) (g : graph) :
  covers_len n g = true -> maxcut_cost (repeat c n) g = Ok 0.
Proof.
  intros Hcov.
  assert (Hb : covers (repeat c n) g = true)
    by (unfold covers; now rewrite repeat_length).
  rewrite (maxcut_cost_cut_value _ _ Hb). f_equal.
  unfold cut_value, reversed. rewrite rev_repeat.
  now apply sum_edge_term_repeat.
Qed.

(** ** The global bit flip *)

Lemma flip_bit_involutive (c : ascii) : flip_bit (flip_bit c) = c.
Proof.
  unfold flip_bit.
  destruct (Ascii.eqb_spec c "0"%char) as [-> | H0]; [reflexivity |].
  destruct (Ascii.eqb_spec c "1"%char) as [-> | H1]; [reflexivity |].
  destruct (Ascii.eqb_spec c "0"%char); [contradiction |].
  destruct (Ascii.eqb_spec c "1"%char); [contradiction | reflexivity].
Qed.

Lemma flip_bit_eqb (x y : ascii) :
  Ascii.eqb (flip_bit x) (flip_bit y) = Ascii.eqb x y.
Proof.
  destruct (Ascii.eqb_spec x y) as [-> | Hne].
  - apply Ascii.eqb_refl.
  - apply Ascii.eqb_neq. intros Heq. apply Hne.
    rewrite <- (flip_bit_involutive x), <- (flip_bit_involutive y).
    now rewrite Heq.
Qed.

Lemma maxcut_step_complement (s : bitstring) (v : Z) (e : Z * Z) :
  maxcut_step (complement s) v e = maxcut_step s v e.
Proof.
  destruct e as [i j]. unfold maxcut_step, complement.
  rewrite !getitem_map.
  destruct (getitem s i) as [bi |]; cbn [bind]; [| reflexivity].
  destruct (getitem s j) as [bj |]; cbn [bind]; [| reflexivity].
  now rewrite flip_bit_eqb.
Qed.

Lemma maxcut_loop_complement (s : bitstring) (es : list (Z * Z)) :
  forall v, maxcut_loop (complement s) es v = maxcut_loop s es v.
Proof.
  induction es as [| e es IH]; intros v; [reflexivity |].
  cbn [maxcut_loop]. rewrite maxcut_step_complement.
  destruct (maxcut_step s v e); cbn [bind]; [apply IH | reflexivity].
Qed.

Lemma maxcut_cost_complement (b : bitstring) (g : graph) :
  maxcut_cost (complement b) g = maxcut_cost b g.
Proof.
  unfold maxcut_cost, reversed, complement.
  rewrite <- map_rev. apply maxcut_loop_complement.
Qed.

Lemma maxcut_cost_bounds (b : bitstring) (g : graph) (v : Z) :
  maxcut_cost b g = Ok v -> - Z.of_nat (List.length (edges g)) <= v <= 0.
Proof.
  unfold maxcut_cost. intros Hrun.
  apply maxcut_loop_bounds in Hrun. lia.
Qed.

(** C8.  On the 4-cycle the alternating assignment 0101 and its complement
    1010 both cost -4, no string costs less, and for every graph the cost of
    a string equals the cost of its bit-complement. *)
Theorem maxcut_cost_flip_invariant :
  maxcut_cost (bits "0101") graph4 = Ok (-4)
  /\ complement (bits "0101") = bits "1010"
  /\ maxcut_cost (bits "1010") graph4 = Ok (-4)
  /\ min_cost graph4 = Some (-4)
  /\ (forall b v, maxcut_cost b graph4 = Ok v -> -4 <= v)
  /\ (forall b g, maxcut_cost (complement b) g = maxcut_cost b g).
Proof.
  repeat split; try reflexivity.
  - intros b v Hrun. apply maxcut_cost_bounds in Hrun. cbn in Hrun. lia.
  - apply maxcut_cost_complement.
Qed.

Lemma maxcut_cost_flip_invariant_witness :
  -4 <= -2
  /\ maxcut_cost (complement (bits "0010")) graph4 = Ok (-2).
Proof.
  destruct maxcut_cost_flip_invariant as (_ & _ & _ & _ & Hmin & Hflip).
  split.
  - apply (Hmin (bits "0001")). reflexivity.
  - rewrite (Hflip (bits "0010") graph4). reflexivity.
Defined.

(** C9.  Reversing a bit-string twice gives the string back; hence the
    configuration read out at the end, reversed again, is the measured
    string, and the cost of a measured string is the edge sum read directly
    on the configuration extracted from it. *)
Theorem reversed_involutive (b : bitstring) (g : graph) :
  reversed (reversed b) = b
  /\ reversed (solution_configuration b) = b
  /\ maxcut_cost (reversed (solution_configuration b)) g = maxcut_cost b g
  /\ maxcut_cost b g = maxcut_loop (solution_configuration b) (edges g) 0.
Proof.
  assert (Hrev : reversed (reversed b) = b) by apply rev_involutive.
  unfold solution_configuration. rewrite Hrev. repeat split.
Qed.

(** C10.  On a bit-string that covers every edge endpoint, [maxcut_cost]
    returns an integer between minus the number of edges and 0. *)
Theorem maxcut_cost_range (b : bitstring) (g : graph) :
  covers b g = true ->
  exists v, maxcut_cost b g = Ok v
            /\ - Z.of_nat (List.length (edges g)) <= v <= 0.
Proof.
  intros Hcov. exists (cut_value b g). split.
  - now apply maxcut_cost_cut_value.
  - apply cut_value_bounds.
Qed.

Lemma maxcut_cost_range_witness :
  exists v, maxcut_cost (bits "0110") graph4 = Ok v /\ -4 <= v <= 0.
Proof.
  exact (maxcut_cost_range (bits "0110") graph4 eq_refl).
Defined.

(** ** The expectation loop *)

Lemma getitem_raise {A : Type} (l : list A) (i : Z) (e : exn) :
  getitem l i = Raise e -> e = IndexError.
Proof.
  unfold getitem. destruct ((_ <? 0) || (_ <=? _)); [congruence |].
  destruct (nth_error l _); congruence.
Qed.

Lemma maxcut_loop_raise (s : bitstring) (es : list (Z * Z)) (e : exn) :
  forall v, maxcut_loop s es v = Raise e -> e = IndexError.
Proof.
  induction es as [| [i j] es IH]; intros v; cbn [maxcut_loop];
    [discriminate |].
  unfold maxcut_step.
  destruct (getitem s i) as [bi |] eqn:Ei; cbn [bind];
    [| intros [= <-]; eapply getitem_raise; eassumption].
  destruct (getitem s j) as [bj |] eqn:Ej; cbn [bind];
    [| intros [= <-]; eapply getitem_raise; eassumption].
  destruct (Ascii.eqb bi bj); cbn [bind]; apply IH.
Qed.

Lemma maxcut_cost_raise (b : bitstring) (g : graph) (e : exn) :
  maxcut_cost b g = Raise e -> e = IndexError.
Proof. unfold maxcut_cost. apply maxcut_loop_raise. Qed.

Lemma expval_loop_raise (g : graph) (cs : counts) (e : exn) :
  forall acc, expval_loop g cs acc = Raise e -> e = IndexError.
Proof.
  induction cs as [| [b n] cs IH]; intros [c t]; cbn [expval_loop];
    [discriminate |].
  unfold expval_step.
  destruct (maxcut_cost b g) as [v |] eqn:Ev; cbn [bind].
  - apply IH.
  - intros [= <-]. eapply maxcut_cost_raise; eassumption.
Qed.

(** Whatever the costs, [total_shots] ends as the sum of the counts. *)
Lemma expval_loop_total (g : graph) (cs : counts) :
  forall c t c' t',
    expval_loop g cs (c, t) = Ok (c', t') -> t' = t + total_count cs.
Proof.
  induction cs as [| [b n] cs IH]; intros c t c' t'; cbn [expval_loop].
  - intros [= <- <-]. unfold total_count, sum_Z. cbn [map fold_right]. lia.
  - unfold expval_step.
    destruct (maxcut_cost b g) as [v |]; cbn [bind]; [| discriminate].
    intros Hrun. apply IH in Hrun. subst t'.
    unfold total_count, sum_Z. cbn [map snd fold_right]. lia.
Qed.



(** No path of [get_expval] rejects its input with a signal of its own. *)
Lemma get_expval_raise (cs : counts) (g : graph) (e : exn) :
  get_expval cs g = Raise e -> e = IndexError \/ e = ZeroDivisionError.
Proof.
  unfold get_expval.
  destruct (expval_loop g cs (0, 0)) as [[c t] |] eqn:Hloop; cbn [bind].
  - unfold truediv. cbn [fst snd]. destruct (t =? 0); [| discriminate].
    intros [= <-]. now right.
  - intros [= <-]. left. eapply expval_loop_raise; eassumption.
Qed.

(** C1, as stated, fails: on the empty histogram the division itself raises
    [ZeroDivisionError]; no invalid-configuration signal is produced. *)
Lemma get_expval_empty_unguarded :
  total_count [] = 0
  /\ get_expval [] graph4 = Raise ZeroDivisionError
  /\ get_expval [] graph4 <> Raise InvalidConfiguration.
Proof.
  repeat split. discriminate.
Qed.

(** ** Achievable costs *)








(** The extremes are reached by some bit-string of the graph. *)
Lemma fold_left_pick_In (pick : Z -> Z -> Z) (l : list Z) :
  (forall x y, pick x y = x \/ pick x y = y) ->
  forall a, fold_left pick l a = a \/ In (fold_left pick l a) l.
Proof.
  intros Hpick. induction l as [| y l IH]; intros a; cbn [fold_left];
    [now left |].
  destruct (IH (pick a y)) as [Heq | Hin].
  - rewrite Heq. destruct (Hpick a y) as [-> | ->]; [now left | right; now left].
  - right. now right.
Qed.

Lemma min_cost_reached (g : graph) (m : Z) :
  min_cost g = Some m -> In m (achievable_costs g).
Proof.
  unfold min_cost, extremum. destruct (achievable_costs g) as [| a l];
    [discriminate |].
  intros [= <-].
  destruct (fold_left_pick_In Z.min l) with (a := a) as [-> | Hin];
    [intros x y; lia | now left | now right].
Qed.



(** ** The weighted average *)



Lemma quotient_between (lo hi w t : Z) :
  0 < t -> lo * t <= w <= hi * t ->
  (inject_Z lo <= inject_Z w / inject_Z t <= inject_Z hi)%Q.
Proof.
  intros Ht [Hlo Hhi].
  assert (Hpos : (0 < inject_Z t)%Q)
    by (change 0%Q with (inject_Z 0); now rewrite <- Zlt_Qlt).
  split.
  - apply Qle_shift_div_l; [exact Hpos |].
    rewrite <- inject_Z_mult, <- Zle_Qle. exact Hlo.
  - apply Qle_shift_div_r; [exact Hpos |].
    rewrite <- inject_Z_mult, <- Zle_Qle. exact Hhi.
Qed.




(** ** Building the circuit *)

Lemma getitem_nth {A : Type} (d : A) (l : list A) (i : Z) :
  in_range (List.length l) i = true ->
  getitem l i = Ok (nth (Z.to_nat i) l d).
Proof.
  intros Hi. apply in_range_spec in Hi. unfold getitem.
  destruct (Z.ltb_spec i 0) as [Hneg | _]; [lia |].
  destruct (Z.ltb_spec i 0) as [Hneg | _]; [lia |].
  destruct (Z.leb_spec (Z.of_nat (List.length l)) i) as [Hbig | _]; [lia |].
  cbn [orb].
  assert (Hlt : (Z.to_nat i < List.length l)%nat) by lia.
  rewrite (nth_error_nth' l d Hlt). reflexivity.
Qed.

Lemma getitem_beyond {A : Type} (l : list A) (k : nat) :
  (List.length l <= k)%nat -> getitem l (Z.of_nat k) = Raise IndexError.
Proof.
  intros Hk. unfold getitem.
  destruct (Z.ltb_spec (Z.of_nat k) 0) as [Hneg | _]; [lia |].
  destruct (Z.ltb_spec (Z.of_nat k) 0) as [Hneg | _]; [lia |].
  destruct (Z.leb_spec (Z.of_nat (List.length l)) (Z.of_nat k)) as [_ | Hin];
    [reflexivity | lia].
Qed.

Lemma getitem_layer (l : list float) (k : nat) :
  getitem l (Z.of_nat k)
  = if (k <? List.length l)%nat then Ok (layer_angle l k)
    else Raise IndexError.
Proof.
  destruct (Nat.ltb_spec k (List.length l)) as [Hlt | Hge].
  - rewrite (getitem_nth 0%float) by (apply in_range_spec; lia).
    unfold layer_angle. now rewrite Nat2Z.id.
  - now apply getitem_beyond.
Qed.

Lemma append_append (qc : circuit) (xs ys : list instruction) :
  append (append qc xs) ys = append qc (xs ++ ys).
Proof. unfold append. cbn [num_qubits num_clbits data]. now rewrite app_assoc. Qed.

Lemma append_nil (qc : circuit) : append qc [] = qc.
Proof. destruct qc. unfold append. cbn. now rewrite app_nil_r. Qed.

(** *** The argument checks *)

Lemma resolve_bit_closed (n i : Z) :
  resolve_bit n i
  = if is_qubit n i then Ok (resolved n i) else Raise CircuitError.
Proof.
  unfold resolve_bit, is_qubit.
  destruct (Z.ltb_spec (resolved n i) 0), (Z.leb_spec n (resolved n i)),
    (Z.leb_spec 0 (resolved n i)), (Z.ltb_spec (resolved n i) n);
    cbn [orb andb]; try reflexivity; lia.
Qed.

Lemma is_qubit_position (n i : Z) :
  0 <= i < n -> is_qubit n i = true /\ resolved n i = i.
Proof.
  intros Hi. unfold is_qubit, resolved.
  destruct (Z.ltb_spec i 0); [lia |]. split; [| reflexivity].
  apply andb_true_iff. split; [apply Z.leb_le | apply Z.ltb_lt]; lia.
Qed.

Lemma resolve_each_seq (n : Z) (m : nat) :
  forall k : nat,
    Z.of_nat (k + m) <= n ->
    resolve_each n (map Z.of_nat (seq k m)) = Ok (map Z.of_nat (seq k m)).
Proof.
  induction m as [| m IH]; intros k Hk; [reflexivity |].
  cbn [seq map resolve_each]. rewrite resolve_bit_closed.
  destruct (is_qubit_position n (Z.of_nat k)) as [-> ->]; [lia |].
  cbn [bind]. rewrite IH by lia. reflexivity.
Qed.

(** A method applied to [range(N)] on a register of [N] bits takes every
    bit in turn, and fails exactly when there is none. *)
Lemma resolve_bits_range (N : nat) :
  resolve_bits (Z.of_nat N) (range (Z.of_nat N))
  = if (0 <? N)%nat then Ok (range (Z.of_nat N)) else Raise CircuitError.
Proof.
  unfold range. rewrite Nat2Z.id. destruct N as [| N]; [reflexivity |].
  change (0 <? S N)%nat with true. cbv beta iota.
  change (resolve_bits (Z.of_nat (S N)) (map Z.of_nat (seq 0 (S N))))
    with (resolve_each (Z.of_nat (S N)) (map Z.of_nat (seq 0 (S N)))).
  apply resolve_each_seq. lia.
Qed.

Lemma qc_cx_closed (qc : circuit) (ab : Z * Z) :
  qc_cx qc (fst ab) (snd ab)
  = if good_edge (num_qubits qc) ab
    then Ok (append qc [CX (resolved (num_qubits qc) (fst ab))
                           (resolved (num_qubits qc) (snd ab))])
    else Raise CircuitError.
Proof.
  unfold qc_cx, good_edge. rewrite !resolve_bit_closed.
  destruct (is_qubit (num_qubits qc) (fst ab)); cbn [bind andb];
    [| reflexivity].
  destruct (is_qubit (num_qubits qc) (snd ab)); cbn [bind andb];
    [| reflexivity].
  destruct (_ =? _); reflexivity.
Qed.

Lemma qc_rz_good (qc : circuit) (theta : float) (ab : Z * Z) :
  good_edge (num_qubits qc) ab = true ->
  qc_rz qc theta (snd ab)
  = Ok (append qc [RZ theta (resolved (num_qubits qc) (snd ab))]).
Proof.
  unfold good_edge, qc_rz. rewrite !andb_true_iff. intros [[_ Hb] _].
  now rewrite resolve_bit_closed, Hb.
Qed.

(** *** The edge loop *)

Lemma edge_body_closed (gammas : list float) (l : nat) (qc : circuit)
  (ab : Z * Z) :
  edge_body gammas (Z.of_nat l) qc ab
  = if good_edge (num_qubits qc) ab
    then if (l <? List.length gammas)%nat
         then Ok (append qc (cost_block (num_qubits qc)
                                        (layer_angle gammas l) ab))
         else Raise IndexError
    else Raise CircuitError.
Proof.
  unfold edge_body, qc_barrier. rewrite qc_cx_closed.
  change (num_qubits (append qc [Barrier])) with (num_qubits qc).
  destruct (good_edge (num_qubits qc) ab) eqn:Hgood; cbn [bind];
    [| reflexivity].
  rewrite getitem_layer.
  destruct (l <? List.length gammas)%nat; cbn [bind]; [| reflexivity].
  rewrite qc_rz_good by exact Hgood. cbn [bind].
  rewrite qc_cx_closed.
  change (num_qubits (append _ _)) with (num_qubits qc). rewrite Hgood.
  unfold cost_block. rewrite !append_append. reflexivity.
Qed.

(** With its angle at hand a layer's edge loop stops at the first edge that
    [cx] rejects. *)
Lemma edge_loop_angle (gammas : list float) (l : nat) (es : list (Z * Z)) :
  (l < List.length gammas)%nat ->
  forall qc,
    edge_loop gammas (Z.of_nat l) es qc
    = if forallb (good_edge (num_qubits qc)) es
      then Ok (append qc (flat_map (cost_block (num_qubits qc)
                                               (layer_angle gammas l)) es))
      else Raise CircuitError.
Proof.
  intros Hl. apply Nat.ltb_lt in Hl.
  induction es as [| ab es IH]; intros qc.
  - cbn [edge_loop forallb flat_map]. now rewrite append_nil.
  - cbn [edge_loop forallb flat_map]. rewrite edge_body_closed, Hl.
    destruct (good_edge (num_qubits qc) ab); cbn [bind andb];
      [| reflexivity].
    rewrite IH. change (num_qubits (append _ _)) with (num_qubits qc).
    destruct (forallb _ es); [| reflexivity].
    now rewrite append_append.
Qed.

(** On edges that [cx] accepts the only failure is a missing angle. *)
Lemma edge_loop_good (gammas : list float) (l : nat) (es : list (Z * Z))
  (qc : circuit) :
  forallb (good_edge (num_qubits qc)) es = true ->
  edge_loop gammas (Z.of_nat l) es qc
  = if match es with [] => true | _ :: _ => false end
       || (l <? List.length gammas)%nat
    then Ok (append qc (flat_map (cost_block (num_qubits qc)
                                             (layer_angle gammas l)) es))
    else Raise IndexError.
Proof.
  intros Hgood.
  destruct (Nat.ltb_spec l (List.length gammas)) as [Hlt | Hge].
  - rewrite orb_true_r, (edge_loop_angle _ _ _ Hlt), Hgood. reflexivity.
  - rewrite orb_false_r. destruct es as [| ab es].
    + cbn [edge_loop flat_map]. now rewrite append_nil.
    + cbn [forallb] in Hgood. apply andb_true_iff in Hgood as [Hab _].
      cbn [edge_loop]. rewrite edge_body_closed, Hab.
      apply Nat.ltb_ge in Hge. now rewrite Hge.
Qed.

Lemma edge_loop_returns (gammas : list float) (l : nat)
  (es : list (Z * Z)) :
  forall qc qc',
    edge_loop gammas (Z.of_nat l) es qc = Ok qc' ->
    forallb (good_edge (num_qubits qc)) es = true.
Proof.
  induction es as [| ab es IH]; intros qc qc'; [reflexivity |].
  cbn [edge_loop forallb]. rewrite edge_body_closed.
  destruct (good_edge (num_qubits qc) ab); cbn [bind andb];
    [| discriminate].
  destruct (l <? List.length gammas)%nat; cbn [bind]; [| discriminate].
  intros Hrun. apply IH in Hrun. exact Hrun.
Qed.

(** *** The layer loop *)

Lemma qc_rx_range (N : nat) (qc : circuit) (beta : float) :
  num_qubits qc = Z.of_nat N ->
  qc_rx qc beta (range (Z.of_nat N))
  = if (0 <? N)%nat
    then Ok (append qc (map (RX beta) (range (Z.of_nat N))))
    else Raise CircuitError.
Proof.
  intros Hn. unfold qc_rx. rewrite Hn, resolve_bits_range.
  destruct (0 <? N)%nat; reflexivity.
Qed.

Lemma layer_body_good (g : graph) (gammas betas : list float) (N : nat)
  (qc : circuit) (l : nat) :
  num_qubits qc = Z.of_nat N -> (0 < N)%nat ->
  forallb (good_edge (Z.of_nat N)) (edges g) = true ->
  layer_body g gammas betas (Z.of_nat N) qc (Z.of_nat l)
  = if layer_reads g gammas betas l
    then Ok (append qc (qaoa_layer g (Z.of_nat N) (layer_angle gammas l)
                                   (layer_angle betas l)))
    else Raise IndexError.
Proof.
  intros Hn HN Hgood. unfold layer_body, layer_reads, no_edges.
  rewrite edge_loop_good by (now rewrite Hn). rewrite Hn.
  destruct (_ || (l <? List.length gammas)%nat); cbn [bind andb];
    [| reflexivity].
  rewrite getitem_layer.
  destruct (l <? List.length betas)%nat; cbn [bind]; [| reflexivity].
  unfold qc_barrier. rewrite (qc_rx_range N) by exact Hn.
  apply Nat.ltb_lt in HN. rewrite HN.
  unfold qaoa_layer, mixer_block. rewrite !append_append. cbn [app].
  reflexivity.
Qed.

Lemma layer_body_enough (g : graph) (gammas betas : list float) (N : nat)
  (qc : circuit) (l : nat) :
  num_qubits qc = Z.of_nat N -> (0 < N)%nat ->
  layer_reads g gammas betas l = true ->
  layer_body g gammas betas (Z.of_nat N) qc (Z.of_nat l)
  = if forallb (good_edge (Z.of_nat N)) (edges g)
    then Ok (append qc (qaoa_layer g (Z.of_nat N) (layer_angle gammas l)
                                   (layer_angle betas l)))
    else Raise CircuitError.
Proof.
  intros Hn HN Hreads.
  destruct (forallb (good_edge (Z.of_nat N)) (edges g)) eqn:Hgood.
  - now rewrite (layer_body_good _ _ _ N) , Hreads.
  - unfold layer_reads, no_edges in Hreads.
    apply andb_true_iff in Hreads as [Hg _].
    destruct (edges g) as [| ab es] eqn:Hes; [discriminate |].
    cbn [orb] in Hg. apply Nat.ltb_lt in Hg.
    unfold layer_body. rewrite Hes, (edge_loop_angle _ _ _ Hg), Hn, Hgood.
    reflexivity.
Qed.

Lemma layer_body_returns (g : graph) (gammas betas : list float) (n : Z)
  (qc qc' : circuit) (l : nat) :
  layer_body g gammas betas n qc (Z.of_nat l) = Ok qc' ->
  forallb (good_edge (num_qubits qc)) (edges g) = true.
Proof.
  unfold layer_body.
  destruct (edge_loop gammas (Z.of_nat l) (edges g) qc) as [qc1 |] eqn:Hedges;
    cbn [bind]; [| discriminate].
  intros _. eapply edge_loop_returns. eassumption.
Qed.

Lemma layer_loop_good (g : graph) (gammas betas : list float) (N : nat)
  (m : nat) :
  (0 < N)%nat ->
  forallb (good_edge (Z.of_nat N)) (edges g) = true ->
  forall (k : nat) (qc : circuit),
    num_qubits qc = Z.of_nat N ->
    layer_loop g gammas betas (Z.of_nat N) (map Z.of_nat (seq k m)) qc
    = if forallb (layer_reads g gammas betas) (seq k m)
      then Ok (append qc
                 (flat_map (fun l => qaoa_layer g (Z.of_nat N)
                                                (layer_angle gammas l)
                                                (layer_angle betas l))
                           (seq k m)))
      else Raise IndexError.
Proof.
  intros HN Hgood. induction m as [| m IH]; intros k qc Hn.
  - cbn [seq map layer_loop flat_map forallb]. now rewrite append_nil.
  - cbn [seq map layer_loop flat_map forallb].
    rewrite (layer_body_good _ _ _ N) by assumption.
    destruct (layer_reads g gammas betas k); cbn [bind andb];
      [| reflexivity].
    rewrite IH by exact Hn. destruct (forallb _ (seq (S k) m));
      [| reflexivity].
    now rewrite append_append.
Qed.

Lemma layer_loop_enough (g : graph) (gammas betas : list float) (N : nat)
  (m : nat) :
  (0 < N)%nat ->
  forall (k : nat) (qc : circuit),
    num_qubits qc = Z.of_nat N ->
    forallb (layer_reads g gammas betas) (seq k m) = true ->
    layer_loop g gammas betas (Z.of_nat N) (map Z.of_nat (seq k m)) qc
    = if (m =? 0)%nat || forallb (good_edge (Z.of_nat N)) (edges g)
      then Ok (append qc
                 (flat_map (fun l => qaoa_layer g (Z.of_nat N)
                                                (layer_angle gammas l)
                                                (layer_angle betas l))
                           (seq k m)))
      else Raise CircuitError.
Proof.
  intros HN. induction m as [| m IH]; intros k qc Hn Hreads.
  - cbn [seq map layer_loop flat_map Nat.eqb orb]. now rewrite append_nil.
  - cbn [seq forallb] in Hreads. apply andb_true_iff in Hreads as [Hk Hrest].
    cbn [seq map layer_loop flat_map Nat.eqb orb].
    rewrite (layer_body_enough _ _ _ N) by assumption.
    destruct (forallb (good_edge (Z.of_nat N)) (edges g)) eqn:Hgood;
      cbn [bind]; [| reflexivity].
    rewrite IH by assumption. rewrite orb_true_r.
    now rewrite append_append.
Qed.

Lemma layer_loop_returns (g : graph) (gammas betas : list float) (n : Z)
  (k m : nat) (qc qc' : circuit) :
  layer_loop g gammas betas n (map Z.of_nat (seq k (S m))) qc = Ok qc' ->
  forallb (good_edge (num_qubits qc)) (edges g) = true.
Proof.
  cbn [seq map layer_loop].
  destruct (layer_body g gammas betas n qc (Z.of_nat k)) as [qc1 |] eqn:Hbody;
    cbn [bind]; [| discriminate].
  intros _. eapply layer_body_returns. eassumption.
Qed.

Lemma layer_reads_all (g : graph) (gammas betas : list float) (layers : Z) :
  forallb (layer_reads g gammas betas) (seq 0 (Z.to_nat layers))
  = enough_angles g gammas betas layers.
Proof.
  unfold enough_angles.
  destruct (forallb _ _) eqn:Hall.
  - symmetry. rewrite forallb_forall in Hall.
    destruct (Z.leb_spec layers 0) as [Hnone | Hsome].
    + apply andb_true_iff. split; [apply orb_true_iff; right |];
        apply Z.leb_le; lia.
    + assert (Hlast : In (Z.to_nat layers - 1)%nat (seq 0 (Z.to_nat layers)))
        by (apply in_seq; lia).
      apply Hall in Hlast. unfold layer_reads in Hlast.
      apply andb_true_iff in Hlast as [Hg Hb].
      apply Nat.ltb_lt in Hb. apply andb_true_iff. split.
      * apply orb_true_iff in Hg as [Hg | Hg]; apply orb_true_iff;
          [now left | right].
        apply Nat.ltb_lt in Hg. apply Z.leb_le. lia.
      * apply Z.leb_le. lia.
  - symmetry. apply not_true_is_false. intros Henough.
    apply andb_true_iff in Henough as [Hg Hb]. apply Z.leb_le in Hb.
    assert (Hyes : forallb (layer_reads g gammas betas)
                           (seq 0 (Z.to_nat layers)) = true).
    { apply forallb_forall. intros l Hl. apply in_seq in Hl.
      unfold layer_reads. apply andb_true_iff. split.
      - apply orb_true_iff in Hg as [Hg | Hg]; apply orb_true_iff;
          [now left | right].
        apply Z.leb_le in Hg. apply Nat.ltb_lt. lia.
      - apply Nat.ltb_lt. lia. }
    congruence.
Qed.

Lemma measure_diagonal (qs : list Z) :
  map (fun p : Z * Z => Measure (fst p) (snd p)) (combine qs qs)
  = map (fun q => Measure q q) qs.
Proof.
  induction qs as [| q qs IH]; [reflexivity |].
  cbn [combine map fst snd]. now rewrite IH.
Qed.

(** *** The whole builder *)

Lemma qc_measure_range (N : nat) (qc : circuit) :
  num_qubits qc = Z.of_nat N -> num_clbits qc = Z.of_nat N ->
  qc_measure qc (range (Z.of_nat N)) (range (Z.of_nat N))
  = if (0 <? N)%nat
    then Ok (append qc (map (fun q => Measure q q) (range (Z.of_nat N))))
    else Raise CircuitError.
Proof.
  intros Hq Hc. unfold qc_measure. rewrite Hq, Hc, resolve_bits_range.
  destruct (0 <? N)%nat; cbn [bind]; [| reflexivity].
  now rewrite measure_diagonal.
Qed.

Lemma qc_h_range (N : nat) :
  qc_h (QuantumCircuit (Z.of_nat N) (Z.of_nat N)) (range (Z.of_nat N))
  = if (0 <? N)%nat
    then Ok (mkCircuit (Z.of_nat N) (Z.of_nat N)
                       (map H (range (Z.of_nat N))))
    else Raise CircuitError.
Proof.
  unfold qc_h, QuantumCircuit. cbn [num_qubits].
  rewrite resolve_bits_range. destruct (0 <? N)%nat; reflexivity.
Qed.

Lemma no_layers (layers : Z) :
  (Z.to_nat layers =? 0)%nat = (layers <=? 0).
Proof.
  destruct (Z.leb_spec layers 0) as [Hle | Hgt].
  - apply Nat.eqb_eq. lia.
  - apply Nat.eqb_neq. lia.
Qed.

Lemma register_size (N : nat) : (0 <? N)%nat = (1 <=? Z.of_nat N).
Proof.
  destruct (Nat.ltb_spec 0 N), (Z.leb_spec 1 (Z.of_nat N)); try reflexivity;
    lia.
Qed.

(** With every angle at hand the builder fails only on the graph. *)
Lemma Build_QAOA_enough (g : graph) (gammas betas : list float)
  (layers : Z) :
  enough_angles g gammas betas layers = true ->
  Build_QAOA g gammas betas layers
  = if builds g layers
    then Ok (mkCircuit (Z.of_nat (List.length (nodes g)))
                       (Z.of_nat (List.length (nodes g)))
                       (qaoa_description g gammas betas layers))
    else Raise CircuitError.
Proof.
  intros Henough. unfold Build_QAOA, builds.
  set (N := List.length (nodes g)).
  rewrite qc_h_range, <- register_size.
  destruct (Nat.ltb_spec 0 N) as [HN | HN]; cbn [bind andb];
    [| reflexivity].
  change (range layers) with (map Z.of_nat (seq 0 (Z.to_nat layers))).
  rewrite (layer_loop_enough _ _ _ N) by
    (try rewrite layer_reads_all; solve [assumption | reflexivity]).
  rewrite no_layers.
  destruct ((layers <=? 0) || forallb (good_edge (Z.of_nat N)) (edges g));
    cbn [bind]; [| reflexivity].
  rewrite (qc_measure_range N) by reflexivity.
  apply Nat.ltb_lt in HN. rewrite HN.
  unfold append, qaoa_description. cbn [num_qubits num_clbits data].
  fold N. now rewrite <- app_assoc.
Qed.

(** On a graph that the gate methods accept the builder fails only on a
    missing angle. *)
Lemma Build_QAOA_builds (g : graph) (gammas betas : list float)
  (layers : Z) :
  builds g layers = true ->
  Build_QAOA g gammas betas layers
  = if enough_angles g gammas betas layers
    then Ok (mkCircuit (Z.of_nat (List.length (nodes g)))
                       (Z.of_nat (List.length (nodes g)))
                       (qaoa_description g gammas betas layers))
    else Raise IndexError.
Proof.
  intros Hbuilds.
  destruct (enough_angles g gammas betas layers) eqn:Henough.
  - now rewrite (Build_QAOA_enough _ _ _ _ Henough), Hbuilds.
  - unfold builds in Hbuilds. set (N := List.length (nodes g)) in *.
    apply andb_true_iff in Hbuilds as [HN Hedges].
    rewrite <- register_size in HN.
    destruct (Z.leb_spec layers 0) as [Hnone | Hsome].
    + exfalso. unfold enough_angles in Henough.
      apply andb_false_iff in Henough as [Hg | Hb].
      * apply orb_false_iff in Hg as [_ Hg]. apply Z.leb_gt in Hg. lia.
      * apply Z.leb_gt in Hb. lia.
    + cbn [orb] in Hedges. unfold Build_QAOA. fold N.
      rewrite qc_h_range, HN. cbn [bind].
      change (range layers) with (map Z.of_nat (seq 0 (Z.to_nat layers))).
      rewrite (layer_loop_good _ _ _ N)
        by (solve [now apply Nat.ltb_lt | assumption | reflexivity]).
      now rewrite layer_reads_all, Henough.
Qed.

Lemma Build_QAOA_returns (g : graph) (gammas betas : list float)
  (layers : Z) (qc : circuit) :
  Build_QAOA g gammas betas layers = Ok qc -> builds g layers = true.
Proof.
  unfold Build_QAOA, builds. set (N := List.length (nodes g)).
  rewrite qc_h_range, <- register_size.
  destruct (0 <? N)%nat; cbn [bind andb]; [| discriminate].
  destruct (Z.leb_spec layers 0) as [Hnone | Hsome]; [reflexivity |].
  cbn [orb].
  change (range layers) with (map Z.of_nat (seq 0 (Z.to_nat layers))).
  replace (Z.to_nat layers) with (S (Z.to_nat layers - 1)) by lia.
  destruct (layer_loop _ _ _ _ _ _) as [qc1 |] eqn:Hloop; cbn [bind];
    [| discriminate].
  intros _. apply layer_loop_returns in Hloop. exact Hloop.
Qed.

(** What a returned circuit tells: the graph was accepted, no angle was
    missing, and the circuit is the described one. *)
Lemma Build_QAOA_inv (g : graph) (gammas betas : list float)
  (layers : Z) (qc : circuit) :
  Build_QAOA g gammas betas layers = Ok qc ->
  builds g layers = true
  /\ enough_angles g gammas betas layers = true
  /\ qc = mkCircuit (Z.of_nat (List.length (nodes g)))
                    (Z.of_nat (List.length (nodes g)))
                    (qaoa_description g gammas betas layers).
Proof.
  intros Hrun. pose proof (Build_QAOA_returns _ _ _ _ _ Hrun) as Hbuilds.
  rewrite (Build_QAOA_builds _ _ _ _ Hbuilds) in Hrun.
  destruct (enough_angles g gammas betas layers); [| discriminate].
  injection Hrun as <-. now repeat split.
Qed.

Lemma buildable_builds (g : graph) (layers : Z) :
  buildable g = true -> builds g layers = true.
Proof.
  unfold buildable, builds. rewrite !andb_true_iff.
  intros [HN Hgood]. split; [exact HN |]. rewrite Hgood. apply orb_true_r.
Qed.

Lemma enough_angles_lengths (g : graph) (gammas betas : list float)
  (layers : Z) :
  layers <= Z.of_nat (List.length gammas) ->
  layers <= Z.of_nat (List.length betas) ->
  enough_angles g gammas betas layers = true.
Proof.
  intros Hg Hb. unfold enough_angles. apply andb_true_iff.
  split; [apply orb_true_iff; right |]; now apply Z.leb_le.
Qed.

(** C4, as stated, fails: with enough angles [Build_QAOA] still returns no
    circuit for a graph with a self-loop, for one whose vertices are
    numbered from 1, and for one without vertices; [cx] and [h] reject
    their arguments. *)
Lemma Build_QAOA_rejected_graphs :
  Build_QAOA (mkGraph [0; 1; 2; 3] [(0, 1); (2, 2)]) [1.0%float] [2.0%float] 1
  = Raise CircuitError
  /\ Build_QAOA (mkGraph [1; 2; 3; 4] [(1, 2); (2, 3); (3, 4); (1, 4)])
                [1.0%float] [2.0%float] 1
     = Raise CircuitError
  /\ Build_QAOA (mkGraph [] []) [1.0%float] [2.0%float] 1
     = Raise CircuitError.
Proof. repeat split. Qed.

(** C4, amended.  For a graph with at least one vertex whose edges each
    name two different qubits of the register, and with at least [layers]
    cost angles and [layers] mixer angles, [Build_QAOA] returns a circuit on
    one qubit and one classical bit per vertex whose operations are, in
    order: a Hadamard on every qubit; for each layer, one cost block per
    edge (barrier, CX, RZ by half the layer's cost angle, CX) followed by a
    barrier and an X-rotation of every qubit by the layer's mixer angle;
    and a measurement of every qubit into the classical bit of the same
    index.  The circuit is this function of the inputs, so equal inputs
    give equal circuits. *)
Theorem Build_QAOA_description (g : graph) (gammas betas : list float)
  (layers : Z) :
  buildable g = true ->
  layers <= Z.of_nat (List.length gammas) ->
  layers <= Z.of_nat (List.length betas) ->
  let n := Z.of_nat (List.length (nodes g)) in
  Build_QAOA g gammas betas layers
  = Ok (mkCircuit n n
          (map H (range n)
           ++ flat_map
                (fun l =>
                   flat_map
                     (fun ab =>
                        [Barrier;
                         CX (resolved n (fst ab)) (resolved n (snd ab));
                         RZ (0.5 * layer_angle gammas l)%float
                            (resolved n (snd ab));
                         CX (resolved n (fst ab)) (resolved n (snd ab))])
                     (edges g)
                   ++ Barrier :: map (RX (layer_angle betas l)) (range n))
                (seq 0 (Z.to_nat layers))
           ++ map (fun q => Measure q q) (range n)))
  /\ Build_QAOA g gammas betas layers
     = Ok (mkCircuit n n (qaoa_description g gammas betas layers)).
Proof.
  intros Hgraph Hg Hb n.
  assert (Hrun : Build_QAOA g gammas betas layers
                 = Ok (mkCircuit n n (qaoa_description g gammas betas layers))).
  { rewrite (Build_QAOA_builds _ _ _ _ (buildable_builds _ layers Hgraph)).
    now rewrite (enough_angles_lengths _ _ _ _ Hg Hb). }
  split; [| exact Hrun].
  rewrite Hrun. reflexivity.
Qed.

Lemma Build_QAOA_description_witness :
  Build_QAOA graph4 [1.0%float] [2.0%float] 1
  = Ok (mkCircuit 4 4
          [H 0; H 1; H 2; H 3;
           Barrier; CX 0 1; RZ 0.5%float 1; CX 0 1;
           Barrier; CX 1 2; RZ 0.5%float 2; CX 1 2;
           Barrier; CX 2 3; RZ 0.5%float 3; CX 2 3;
           Barrier; CX 0 3; RZ 0.5%float 3; CX 0 3;
           Barrier; RX 2.0%float 0; RX 2.0%float 1; RX 2.0%float 2;
           RX 2.0%float 3;
           Measure 0 0; Measure 1 1; Measure 2 2; Measure 3 3]).
Proof.
  destruct (Build_QAOA_description graph4 [1.0%float] [2.0%float] 1)
    as [Hrun _]; [reflexivity | cbn; lia | cbn; lia |].
  rewrite Hrun. vm_compute. reflexivity.
Defined.

(** ** The parameter vector *)

Lemma slice_bound_prefix {A : Type} (xs ys : list A) (k : Z) :
  Z.of_nat (List.length xs) = k ->
  slice_bound (xs ++ ys) k = List.length xs.
Proof.
  intros <-. unfold slice_bound. rewrite length_app.
  destruct (Z.ltb_spec (Z.of_nat (List.length xs)) 0); lia.
Qed.

Lemma slice_to_prefix {A : Type} (xs ys : list A) (k : Z) :
  Z.of_nat (List.length xs) = k -> slice_to (xs ++ ys) k = xs.
Proof.
  intros Hk. unfold slice_to. rewrite (slice_bound_prefix _ _ _ Hk).
  rewrite firstn_app, Nat.sub_diag, firstn_all. cbn [firstn].
  apply app_nil_r.
Qed.

Lemma slice_from_prefix {A : Type} (xs ys : list A) (k : Z) :
  Z.of_nat (List.length xs) = k -> slice_from (xs ++ ys) k = ys.
Proof.
  intros Hk. unfold slice_from. rewrite (slice_bound_prefix _ _ _ Hk).
  rewrite skipn_app, Nat.sub_diag, skipn_all. reflexivity.
Qed.

Lemma map_const_range {A : Type} (a : A) (n : Z) :
  map (fun _ => a) (range n) = repeat a (Z.to_nat n).
Proof.
  unfold range. rewrite map_map.
  generalize 0%nat. induction (Z.to_nat n) as [| m IH]; intros k;
    [reflexivity |].
  cbn [seq map repeat]. now rewrite IH.
Qed.

Lemma initial_guess_repeat (layers : Z) :
  initial_guess layers
  = repeat gamma_0 (Z.to_nat layers) ++ repeat beta_0 (Z.to_nat layers).
Proof. unfold initial_guess. now rewrite !map_const_range. Qed.

Section DriverFacts.

Variable Backend : Type.
Variable transpile : circuit -> circuit.
Variable backend_run : Backend -> circuit -> Z -> result counts * Backend.
Variable propose :
  string -> list float -> list (list float * Q) -> option (list float).
Variable max_calls : string -> Z -> nat.

(** C5.  For a layer count [L >= 0] the initial guess of [optimize_QAOA]
    is [L] copies of [gamma_0] followed by [L] copies of [beta_0], of
    length [2 * L], and it is the start point handed to the minimiser.
    Called on a vector made of [L] entries [gammas] followed by the entries
    [betas], [run_QAOA] passes [gammas] to [Build_QAOA] as the cost angles
    and [betas] as the mixer angles, runs the transpiled circuit with the
    configured shots, and returns and records the expectation value of the
    counts; on a graph that the gate methods accept and with [L] mixer
    angles the circuit sent to the simulator has half of [gammas[l]] in
    the RZ gates and [betas[l]] in the RX gates of layer [l]. *)
Theorem angles_layout (layers : Z) :
  0 <= layers ->
  Z.of_nat (List.length (initial_guess layers)) = 2 * layers
  /\ initial_guess layers
     = repeat gamma_0 (Z.to_nat layers) ++ repeat beta_0 (Z.to_nat layers)
  /\ (forall g shots iterations method (st : store Backend),
        optimize_QAOA transpile backend_run propose max_calls
                      g shots iterations layers method st
        = minimize transpile backend_run propose
                   (max_calls method iterations)
                   (mkObjective g shots layers) method
                   (repeat gamma_0 (Z.to_nat layers)
                    ++ repeat beta_0 (Z.to_nat layers))
                   [] (mkStore [] (backend st)))
  /\ (forall (f : objective) (gammas betas : list float)
             (st : store Backend),
        fn_layers f = layers ->
        Z.of_nat (List.length gammas) = layers ->
        slice_to (gammas ++ betas) layers = gammas
        /\ slice_from (gammas ++ betas) layers = betas
        /\ run_QAOA transpile backend_run f (gammas ++ betas) st
           = match Build_QAOA (fn_graph f) gammas betas layers with
             | Raise e => (Raise e, st)
             | Ok qc =>
                 let (r, sim) :=
                   backend_run (backend st) (transpile qc) (fn_shots f) in
                 match r with
                 | Raise e => (Raise e, mkStore (expval_list st) sim)
                 | Ok cs =>
                     match get_expval cs (fn_graph f) with
                     | Raise e => (Raise e, mkStore (expval_list st) sim)
                     | Ok expval =>
                         (Ok expval,
                          mkStore (expval_list st ++ [expval]) sim)
                     end
                 end
             end
        /\ (buildable (fn_graph f) = true ->
            layers <= Z.of_nat (List.length betas) ->
            let n := Z.of_nat (List.length (nodes (fn_graph f))) in
            Build_QAOA (fn_graph f)
                       (slice_to (gammas ++ betas) layers)
                       (slice_from (gammas ++ betas) layers) layers
            = Ok (mkCircuit n n
                    (map H (range n)
                     ++ flat_map
                          (fun l =>
                             flat_map
                               (fun ab =>
                                  [Barrier;
                                   CX (resolved n (fst ab))
                                      (resolved n (snd ab));
                                   RZ (0.5 * layer_angle gammas l)%float
                                      (resolved n (snd ab));
                                   CX (resolved n (fst ab))
                                      (resolved n (snd ab))])
                               (edges (fn_graph f))
                             ++ Barrier
                                :: map (RX (layer_angle betas l)) (range n))
                          (seq 0 (Z.to_nat layers))
                     ++ map (fun q => Measure q q) (range n))))).
Proof.
  intros Hpos.
  assert (Hlen : Z.of_nat (List.length (repeat gamma_0 (Z.to_nat layers)))
                 = layers) by (rewrite repeat_length; lia).
  split; [rewrite initial_guess_repeat, length_app, !repeat_length; lia |].
  split; [apply initial_guess_repeat |].
  split.
  { intros g shots iterations method st.
    unfold optimize_QAOA, get_QAOA_func. now rewrite initial_guess_repeat. }
  intros f gammas betas st Hf Hg.
  pose proof (slice_to_prefix gammas betas _ Hg) as Hto.
  pose proof (slice_from_prefix gammas betas _ Hg) as Hfrom.
  split; [exact Hto |]. split; [exact Hfrom |]. split.
  - unfold run_QAOA, evaluate_angles. rewrite Hf, Hto, Hfrom.
    destruct (Build_QAOA (fn_graph f) gammas betas layers) as [qc | e];
      [| reflexivity].
    destruct (backend_run _ _ _) as [[cs | e] sim]; [| reflexivity].
    destruct (get_expval cs (fn_graph f)); reflexivity.
  - intros Hgraph Hb n. rewrite Hto, Hfrom.
    rewrite (Build_QAOA_builds _ _ _ _ (buildable_builds _ layers Hgraph)).
    rewrite enough_angles_lengths by lia. reflexivity.
Qed.

(** *** The trace *)

Lemma evaluate_angles_trace (f : objective) (gammas betas : list float)
  (st st' : store Backend) (r : result Q) :
  evaluate_angles transpile backend_run f gammas betas st = (r, st') ->
  expval_list st'
  = expval_list st ++ match r with Ok v => [v] | Raise _ => [] end.
Proof.
  unfold evaluate_angles.
  destruct (Build_QAOA _ _ _ _) as [qc | e].
  - destruct (backend_run _ _ _) as [[cs | e] sim].
    + destruct (get_expval cs _) as [v | e]; intros [= <- <-];
        cbn [expval_list backend]; [reflexivity | now rewrite app_nil_r].
    + intros [= <- <-]. cbn [expval_list]. now rewrite app_nil_r.
  - intros [= <- <-]. now rewrite app_nil_r.
Qed.

Lemma run_QAOA_trace (f : objective) (angles : list float)
  (st st' : store Backend) (r : result Q) :
  run_QAOA transpile backend_run f angles st = (r, st') ->
  expval_list st'
  = expval_list st ++ match r with Ok v => [v] | Raise _ => [] end.
Proof. unfold run_QAOA. apply evaluate_angles_trace. Qed.

(** A run of the minimiser extends the trace by the values it received,
    in call order, also when an evaluation ends it with an exception. *)
Lemma minimize_trace (func : objective) (method : string)
  (x0 : list float) (fuel : nat) :
  forall (history : list (list float * Q)) (st st' : store Backend)
         (r : result (list (list float * Q))),
    minimize transpile backend_run propose fuel func method x0 history st
    = (r, st') ->
    exists calls,
      expval_list st' = expval_list st ++ map snd calls
      /\ match r with
         | Ok history' => history' = history ++ calls
         | Raise _ => True
         end.
Proof.
  induction fuel as [| fuel IH]; intros history st st' r; cbn [minimize].
  - intros [= <- <-]. exists []. cbn [map]. now rewrite !app_nil_r.
  - destruct (propose method x0 history) as [x |].
    + destruct (run_QAOA transpile backend_run func x st) as [[v | e] st1]
        eqn:Hcall; apply run_QAOA_trace in Hcall.
      * intros Hrest. apply IH in Hrest as (calls & Htrace & Hres).
        exists ((x, v) :: calls). split.
        -- rewrite Htrace, Hcall, <- app_assoc. reflexivity.
        -- destruct r; [| exact I]. rewrite Hres, <- app_assoc. reflexivity.
      * intros [= <- <-]. exists []. split; [exact Hcall | exact I].
    + intros [= <- <-]. exists []. cbn [map]. now rewrite !app_nil_r.
Qed.

(** C6.  [get_QAOA_func] empties [expval_list]; an evaluation of the
    objective that returns [v] leaves the earlier entries in place and
    appends exactly [v], and one that raises appends nothing; the calls of
    a minimiser extend the trace by the values returned, in call order;
    so after [optimize_QAOA] the trace is the list of the values returned
    by the evaluations of that run. *)
Theorem expval_list_trace :
  (forall g shots layers (st : store Backend),
      expval_list (snd (get_QAOA_func g shots layers st)) = [])
  /\ (forall f angles (st st' : store Backend) v,
        run_QAOA transpile backend_run f angles st = (Ok v, st') ->
        expval_list st' = expval_list st ++ [v])
  /\ (forall f angles (st st' : store Backend) e,
        run_QAOA transpile backend_run f angles st = (Raise e, st') ->
        expval_list st' = expval_list st)
  /\ (forall fuel func method x0 history (st st' : store Backend) r,
        minimize transpile backend_run propose fuel func method x0 history st
        = (r, st') ->
        exists calls,
          expval_list st' = expval_list st ++ map snd calls
          /\ match r with
             | Ok history' => history' = history ++ calls
             | Raise _ => True
             end)
  /\ (forall g shots iterations layers method (st st' : store Backend)
             history,
        optimize_QAOA transpile backend_run propose max_calls
                      g shots iterations layers method st
        = (Ok history, st') ->
        expval_list st' = map snd history
        /\ List.length (expval_list st') = List.length history).
Proof.
  split; [reflexivity |].
  split; [intros f angles st st' v Hcall;
          exact (run_QAOA_trace _ _ _ _ _ Hcall) |].
  split; [intros f angles st st' e Hcall;
          rewrite (run_QAOA_trace _ _ _ _ _ Hcall); apply app_nil_r |].
  split; [intros fuel func method x0 history st st' r;
          apply minimize_trace |].
  intros g shots iterations layers method st st' history.
  unfold optimize_QAOA, get_QAOA_func. intros Hrun.
  apply minimize_trace in Hrun as (calls & Htrace & Hres).
  cbn [expval_list app] in Htrace, Hres. subst calls.
  split; [exact Htrace |]. rewrite Htrace. apply length_map.
Qed.

End DriverFacts.

Lemma angles_layout_witness :
  List.length (initial_guess 3) = 6%nat
  /\ initial_guess 3 = [gamma_0; gamma_0; gamma_0; beta_0; beta_0; beta_0]
  /\ run_QAOA (fun qc => qc) constant_backend (mkObjective graph4 100 1)
              [1.0%float; 2.0%float] (mkStore [] tt)
     = (Ok (-400 # 100)%Q, mkStore [(-400 # 100)%Q] tt)
  /\ Build_QAOA graph4 (slice_to [1.0%float; 2.0%float] 1)
                (slice_from [1.0%float; 2.0%float] 1) 1
     = Ok (mkCircuit 4 4
          [H 0; H 1; H 2; H 3;
           Barrier; CX 0 1; RZ 0.5%float 1; CX 0 1;
           Barrier; CX 1 2; RZ 0.5%float 2; CX 1 2;
           Barrier; CX 2 3; RZ 0.5%float 3; CX 2 3;
           Barrier; CX 0 3; RZ 0.5%float 3; CX 0 3;
           Barrier; RX 2.0%float 0; RX 2.0%float 1; RX 2.0%float 2;
           RX 2.0%float 3;
           Measure 0 0; Measure 1 1; Measure 2 2; Measure 3 3]).
Proof.
  destruct (angles_layout unit (fun qc => qc) constant_backend
                          (fun _ _ _ => None) (fun _ _ => O) 3)
    as (Hlen & Hguess & _); [lia |].
  destruct (angles_layout unit (fun qc => qc) constant_backend
                          (fun _ _ _ => None) (fun _ _ => O) 1)
    as (_ & _ & _ & Hsplit); [lia |].
  destruct (Hsplit (mkObjective graph4 100 1) [1.0%float] [2.0%float]
                   (mkStore [] tt) eq_refl eq_refl)
    as (_ & _ & Hrun & Hbuild).
  split; [apply Nat2Z.inj; rewrite Hlen; reflexivity |].
  split; [exact Hguess |].
  split.
  - change [1.0%float; 2.0%float] with ([1.0%float] ++ [2.0%float]).
    rewrite Hrun. vm_compute. reflexivity.
  - pose proof (Hbuild eq_refl ltac:(cbn; lia)) as Hcircuit.
    vm_compute in Hcircuit. vm_compute. exact Hcircuit.
Defined.

Lemma expval_list_trace_witness :
  let history := [(initial_guess 1, (-400 # 100)%Q);
                  (initial_guess 1, (-400 # 100)%Q)] in
  let st' := mkStore [(-400 # 100)%Q; (-400 # 100)%Q] tt in
  optimize_QAOA (fun qc => qc) constant_backend two_calls maxiter_calls
                graph4 100 150 1 "COBYLA" (mkStore [(1 # 2)%Q] tt)
  = (Ok history, st')
  /\ expval_list st' = map snd history.
Proof.
  intros history st'.
  assert (Hrun : optimize_QAOA (fun qc => qc) constant_backend two_calls
                   maxiter_calls graph4 100 150 1 "COBYLA"
                   (mkStore [(1 # 2)%Q] tt)
                 = (Ok history, st'))
    by (vm_compute; reflexivity).
  split; [exact Hrun |].
  destruct (expval_list_trace unit (fun qc => qc) constant_backend two_calls
                              maxiter_calls) as (_ & _ & _ & _ & Hopt).
  exact (proj1 (Hopt _ _ _ _ _ _ _ _ Hrun)).
Defined.

(** * Further properties of the cost function *)

Lemma indexable_spec (n : nat) (i : Z) :
  indexable n i = true <-> - Z.of_nat n <= i < Z.of_nat n.
Proof.
  unfold indexable. rewrite andb_true_iff, Z.leb_le, Z.ltb_lt. tauto.
Qed.

Lemma getitem_indexable (s : bitstring) (i : Z) :
  indexable (List.length s) i = true -> getitem s i = Ok (subscript_bit s i).
Proof.
  intros Hi. apply indexable_spec in Hi. unfold getitem, subscript_bit.
  set (n := Z.of_nat (List.length s)) in *.
  set (k := if i <? 0 then i + n else i).
  assert (Hk : 0 <= k < n) by (subst k; destruct (Z.ltb_spec i 0); lia).
  destruct (Z.ltb_spec k 0) as [Hneg | _]; [lia |].
  destruct (Z.leb_spec n k) as [Hbig | _]; [lia |].
  cbn [orb].
  assert (Hlt : (Z.to_nat k < List.length s)%nat) by lia.
  rewrite (nth_error_nth' s "0"%char Hlt). reflexivity.
Qed.

Lemma getitem_not_indexable {A : Type} (l : list A) (i : Z) :
  indexable (List.length l) i = false -> getitem l i = Raise IndexError.
Proof.
  intros Hi. unfold getitem.
  set (n := Z.of_nat (List.length l)).
  set (k := if i <? 0 then i + n else i).
  destruct ((k <? 0) || (n <=? k)) eqn:Hout; [reflexivity |].
  apply orb_false_iff in Hout as [Hlo Hhi].
  apply Z.ltb_ge in Hlo. apply Z.leb_gt in Hhi.
  assert (Hyes : indexable (List.length l) i = true).
  { apply indexable_spec. fold n. subst k.
    destruct (Z.ltb_spec i 0); lia. }
  congruence.
Qed.

Lemma maxcut_step_closed (s : bitstring) (v : Z) (e : Z * Z) :
  maxcut_step s v e
  = if indexable (List.length s) (fst e) && indexable (List.length s) (snd e)
    then Ok (v + subscript_term s e)
    else Raise IndexError.
Proof.
  destruct e as [i j]. cbn [fst snd]. unfold maxcut_step, subscript_term.
  cbn [fst snd].
  destruct (indexable (List.length s) i) eqn:Hi; cbn [andb].
  - rewrite (getitem_indexable _ _ Hi). cbn [bind].
    destruct (indexable (List.length s) j) eqn:Hj.
    + rewrite (getitem_indexable _ _ Hj). cbn [bind].
      destruct (Ascii.eqb _ _); f_equal; lia.
    + now rewrite (getitem_not_indexable _ _ Hj).
  - now rewrite (getitem_not_indexable _ _ Hi).
Qed.

(** The loop in closed form, for every string and edge list. *)
Lemma maxcut_loop_closed (s : bitstring) (es : list (Z * Z)) :
  forall v,
    maxcut_loop s es v
    = if forallb (fun e => indexable (List.length s) (fst e)
                           && indexable (List.length s) (snd e)) es
      then Ok (v + sum_Z (map (subscript_term s) es))
      else Raise IndexError.
Proof.
  induction es as [| e es IH]; intros v.
  - cbn. f_equal. lia.
  - cbn [maxcut_loop forallb]. rewrite maxcut_step_closed.
    destruct (indexable _ (fst e) && indexable _ (snd e)); cbn [bind andb];
      [| reflexivity].
    rewrite IH. destruct (forallb _ es); [| reflexivity].
    cbn [map]. unfold sum_Z. cbn [fold_right]. f_equal. lia.
Qed.

Lemma maxcut_cost_closed (b : bitstring) (g : graph) :
  maxcut_cost b g
  = if indexes_all b g
    then Ok (sum_Z (map (subscript_term (reversed b)) (edges g)))
    else Raise IndexError.
Proof.
  unfold maxcut_cost, indexes_all. rewrite maxcut_loop_closed.
  unfold reversed. rewrite length_rev. reflexivity.
Qed.

Lemma forallb_Permutation {A : Type} (f : A -> bool) (l l' : list A) :
  Permutation l l' -> forallb f l = forallb f l'.
Proof.
  induction 1 as [| x l l' _ IH | x y l | l l' l'' _ IH1 _ IH2];
    cbn [forallb].
  - reflexivity.
  - now rewrite IH.
  - now rewrite !andb_assoc, (andb_comm (f y) (f x)).
  - congruence.
Qed.

Lemma sum_Z_Permutation (l l' : list Z) :
  Permutation l l' -> sum_Z l = sum_Z l'.
Proof.
  unfold sum_Z.
  induction 1 as [| x l l' _ IH | x y l | l l' l'' _ IH1 _ IH2];
    cbn [fold_right]; lia.
Qed.

Lemma subscript_bit_repeat (c : ascii) (n : nat) (i : Z) :
  indexable n i = true -> subscript_bit (repeat c n) i = c.
Proof.
  intros Hi. apply indexable_spec in Hi. unfold subscript_bit.
  rewrite repeat_length. apply nth_repeat_lt.
  destruct (Z.ltb_spec i 0); lia.
Qed.

Lemma subscript_cost_repeat (c : ascii) (n : nat) (es : list (Z * Z)) :
  forallb (fun e => indexable n (fst e) && indexable n (snd e)) es = true ->
  sum_Z (map (subscript_term (repeat c n)) es) = 0.
Proof.
  induction es as [| e es IH]; intros Hidx; [reflexivity |].
  cbn [forallb] in Hidx. apply andb_true_iff in Hidx as [He Hes].
  apply andb_true_iff in He as [Hi Hj].
  unfold sum_Z in *. cbn [map fold_right]. rewrite (IH Hes).
  unfold subscript_term.
  rewrite (subscript_bit_repeat _ _ _ Hi), (subscript_bit_repeat _ _ _ Hj).
  now rewrite Ascii.eqb_refl.
Qed.

(** C7, as stated, fails: for a graph whose four vertices are numbered
    from 1, the all-zero assignment with one bit per vertex has no bit at
    subscript 4 and [maxcut_cost] raises [IndexError]. *)
Lemma maxcut_cost_uniform_renumbered :
  is_bit_assignment (mkGraph [1; 2; 3; 4] [(1, 2); (2, 3); (3, 4); (1, 4)])
                    (bits "0000") = true
  /\ maxcut_cost (bits "0000")
                 (mkGraph [1; 2; 3; 4] [(1, 2); (2, 3); (3, 4); (1, 4)])
     = Raise IndexError.
Proof. split; reflexivity. Qed.

(** C7, amended.  On an assignment in which every bit has the same value,
    whatever the value, [maxcut_cost] evaluates to 0 for every graph whose
    edge endpoints are all valid subscripts of the assignment, in
    particular when they are positions of it, and raises [IndexError] for
    every other graph; it never returns anything but 0. *)
Theorem maxcut_cost_uniform_outcome (c : ascii) (n : nat) (g : graph) :
  maxcut_cost (repeat c n) g
  = (if forallb (fun e => indexable n (fst e) && indexable n (snd e))
                (edges g)
     then Ok 0 else Raise IndexError)
  /\ (covers_len n g = true -> maxcut_cost (repeat c n) g = Ok 0)
  /\ (forall v, maxcut_cost (repeat c n) g = Ok v -> v = 0).
Proof.
  assert (Hclosed : maxcut_cost (repeat c n) g
                    = if forallb (fun e => indexable n (fst e)
                                           && indexable n (snd e)) (edges g)
                      then Ok 0 else Raise IndexError).
  { rewrite maxcut_cost_closed. unfold indexes_all, reversed.
    rewrite rev_repeat, repeat_length.
    destruct (forallb _ (edges g)) eqn:Hidx; [| reflexivity].
    now rewrite (subscript_cost_repeat _ _ _ Hidx). }
  split; [exact Hclosed |]. split.
  - apply maxcut_cost_repeat.
  - rewrite Hclosed. destruct (forallb _ (edges g)); [| discriminate].
    now intros v [= <-].
Qed.

Lemma maxcut_cost_uniform_outcome_witness :
  covers_len 4 graph4 = true
  /\ maxcut_cost (bits "0000") graph4 = Ok 0
  /\ maxcut_cost (bits "1111") graph4 = Ok 0
  /\ maxcut_cost (bits "11") (mkGraph [0; 1] [(0, -1)]) = Ok 0.
Proof.
  split; [reflexivity |]. split; [| split].
  - exact (proj1 (proj2 (maxcut_cost_uniform_outcome "0"%char 4 graph4))
                 eq_refl).
  - exact (proj1 (proj2 (maxcut_cost_uniform_outcome "1"%char 4 graph4))
                 eq_refl).
  - exact (proj1 (maxcut_cost_uniform_outcome "1"%char 2
                    (mkGraph [0; 1] [(0, -1)]))).
Defined.

(** X1.  [maxcut_cost] returns exactly when every edge endpoint is a valid
    subscript of the string, negative offsets from the end included, and
    then its value is the sum of the per-edge terms read at those
    subscripts of the reversed string; in every other case it raises
    [IndexError]. *)
Theorem maxcut_cost_index_error (b : bitstring) (g : graph) :
  maxcut_cost b g
  = if forallb (fun e => indexable (List.length b) (fst e)
                         && indexable (List.length b) (snd e)) (edges g)
    then Ok (sum_Z (map (subscript_term (reversed b)) (edges g)))
    else Raise IndexError.
Proof. apply maxcut_cost_closed. Qed.

(** X2.  The order in which the edges are listed does not matter: two
    graphs whose edge lists are permutations of each other give the same
    result, value or exception, on every string. *)
Theorem maxcut_cost_edge_order (b : bitstring) (ns ns' : list Z)
  (es es' : list (Z * Z)) :
  Permutation es es' ->
  maxcut_cost b (mkGraph ns es) = maxcut_cost b (mkGraph ns' es').
Proof.
  intros Hperm. rewrite !maxcut_cost_closed. unfold indexes_all.
  cbn [edges].
  rewrite (forallb_Permutation _ _ _ Hperm).
  destruct (forallb _ es'); [| reflexivity].
  f_equal. apply sum_Z_Permutation. now apply Permutation_map.
Qed.

Lemma maxcut_cost_edge_order_witness :
  maxcut_cost (bits "0011") graph4
  = maxcut_cost (bits "0011") (mkGraph [] [(1, 2); (0, 1); (0, 3); (2, 3)]).
Proof.
  apply (maxcut_cost_edge_order (bits "0011") [0; 1; 2; 3] []
           [(0, 1); (1, 2); (2, 3); (0, 3)] [(1, 2); (0, 1); (0, 3); (2, 3)]).
  eapply perm_trans; [apply perm_swap |].
  do 2 apply perm_skip. apply perm_swap.
Defined.

(** X3.  Edges are undirected for the cost: exchanging the two endpoints
    of every edge changes neither the value nor the exception. *)
Theorem maxcut_cost_swap_edges (b : bitstring) (g : graph) :
  maxcut_cost b (swap_edges g) = maxcut_cost b g.
Proof.
  rewrite !maxcut_cost_closed. unfold indexes_all, swap_edges. cbn [edges].
  assert (Hidx : forall n es,
             forallb (fun e => indexable n (fst e) && indexable n (snd e))
                     (map (fun e : Z * Z => (snd e, fst e)) es)
             = forallb (fun e => indexable n (fst e) && indexable n (snd e))
                       es).
  { intros n es. induction es as [| e es IH]; [reflexivity |].
    cbn [map forallb fst snd]. rewrite IH. f_equal. apply andb_comm. }
  rewrite Hidx. destruct (forallb _ (edges g)); [| reflexivity].
  f_equal. rewrite map_map. f_equal. apply map_ext.
  intros e. unfold subscript_term. cbn [fst snd].
  now rewrite Ascii.eqb_sym.
Qed.

(** X4.  Characters in front of a string that already covers every edge
    endpoint are ignored: the cost reads the last characters only. *)
Theorem maxcut_cost_leading_ignored (extra b : bitstring) (g : graph) :
  covers b g = true ->
  maxcut_cost (extra ++ b) g = maxcut_cost b g.
Proof.
  intros Hcov. rewrite (maxcut_cost_cut_value b g Hcov).
  assert (Hcov' : covers (extra ++ b) g = true).
  { unfold covers, covers_len in *. rewrite forallb_forall in *.
    intros e He. specialize (Hcov e He).
    apply andb_true_iff in Hcov as [Hi Hj].
    apply in_range_spec in Hi, Hj. rewrite length_app.
    apply andb_true_iff. split; apply in_range_spec; lia. }
  rewrite (maxcut_cost_cut_value _ g Hcov'). f_equal.
  unfold cut_value. f_equal.
  unfold covers, covers_len in Hcov. rewrite forallb_forall in Hcov.
  apply map_ext_in. intros e He. specialize (Hcov e He).
  apply andb_true_iff in Hcov as [Hi Hj]. apply in_range_spec in Hi, Hj.
  unfold edge_term, is_cut, bit_at, reversed. rewrite rev_app_distr.
  rewrite !app_nth1 by (rewrite length_rev; lia). reflexivity.
Qed.

Lemma maxcut_cost_leading_ignored_witness :
  maxcut_cost (bits "11 0101") graph4 = Ok (-4).
Proof.
  change (bits "11 0101") with (bits "11 " ++ bits "0101").
  rewrite (maxcut_cost_leading_ignored (bits "11 ") (bits "0101") graph4);
    reflexivity.
Defined.

(** * Further properties of the expectation value *)

Lemma expval_loop_closed (g : graph) (cs : counts) :
  forall c t,
    expval_loop g cs (c, t)
    = if all_index g cs
      then Ok (c + subscript_weighted cs g, t + total_count cs)
      else Raise IndexError.
Proof.
  induction cs as [| [b n] cs IH]; intros c t.
  - unfold subscript_weighted, total_count, sum_Z.
    cbn [all_index forallb expval_loop map fold_right]. do 2 f_equal; lia.
  - cbn [expval_loop]. unfold expval_step, all_index.
    cbn [forallb fst]. fold (all_index g cs).
    rewrite maxcut_cost_closed.
    destruct (indexes_all b g); cbn [bind andb]; [| reflexivity].
    rewrite IH. destruct (all_index g cs); [| reflexivity].
    unfold subscript_weighted, total_count, subscript_cost, sum_Z.
    cbn [map fst snd fold_right]. do 2 f_equal; lia.
Qed.

Lemma get_expval_closed (cs : counts) (g : graph) :
  get_expval cs g
  = if all_index g cs
    then truediv (subscript_weighted cs g) (total_count cs)
    else Raise IndexError.
Proof.
  unfold get_expval. rewrite expval_loop_closed.
  destruct (all_index g cs); reflexivity.
Qed.

Lemma all_cover_all_index (g : graph) (cs : counts) :
  all_cover g cs = true -> all_index g cs = true.
Proof.
  unfold all_cover, all_index, covers, covers_len, indexes_all.
  rewrite !forallb_forall. intros Hcov item Hin.
  specialize (Hcov item Hin). rewrite forallb_forall in *.
  intros e He. specialize (Hcov e He).
  apply andb_true_iff in Hcov as [Hi Hj]. apply in_range_spec in Hi, Hj.
  apply andb_true_iff. split; apply indexable_spec; lia.
Qed.

(** C1, amended.  When the counts sum to zero, [get_expval] returns no
    value and raises no signal of its own: it raises [ZeroDivisionError],
    from the division itself, when every observed string can be
    subscripted at every edge endpoint (in particular when every string
    covers the endpoints), and [IndexError], from [maxcut_cost], when some
    string cannot. *)
Theorem get_expval_zero_total (cs : counts) (g : graph) :
  total_count cs = 0 ->
  get_expval cs g
  = (if all_index g cs then Raise ZeroDivisionError else Raise IndexError)
  /\ get_expval cs g <> Raise InvalidConfiguration
  /\ (all_cover g cs = true -> get_expval cs g = Raise ZeroDivisionError).
Proof.
  intros Hzero.
  assert (Hclosed : get_expval cs g
                    = if all_index g cs then Raise ZeroDivisionError
                      else Raise IndexError).
  { rewrite get_expval_closed. unfold truediv. rewrite Hzero.
    reflexivity. }
  split; [exact Hclosed |]. split.
  - rewrite Hclosed. destruct (all_index g cs); discriminate.
  - intros Hcov. now rewrite Hclosed, (all_cover_all_index _ _ Hcov).
Qed.

Lemma get_expval_zero_total_witness :
  get_expval [(bits "0101", 0); (bits "0011", 0)] graph4
  = Raise ZeroDivisionError
  /\ get_expval [(bits "01", 0)] (mkGraph [0; 1] [(0, -1)])
     = Raise ZeroDivisionError
  /\ get_expval [(bits "01", 0)] graph4 = Raise IndexError.
Proof.
  split; [| split].
  - apply (get_expval_zero_total [(bits "0101", 0); (bits "0011", 0)] graph4);
      reflexivity.
  - exact (proj1 (get_expval_zero_total [(bits "01", 0)]
                    (mkGraph [0; 1] [(0, -1)]) eq_refl)).
  - exact (proj1 (get_expval_zero_total [(bits "01", 0)] graph4 eq_refl)).
Defined.

(** X5.  A string that cannot be subscripted at some edge endpoint makes
    [get_expval] raise [IndexError] whatever the counts are, also when they
    sum to zero.  When every string can be subscripted and the counts sum
    to zero it raises [ZeroDivisionError], after the whole histogram has
    been read.  So it returns only if every string can be subscripted and
    the total is not zero. *)
Theorem get_expval_outcome (cs : counts) (g : graph) :
  (all_index g cs = false -> get_expval cs g = Raise IndexError)
  /\ (all_index g cs = true -> total_count cs = 0 ->
      get_expval cs g = Raise ZeroDivisionError)
  /\ (forall q, get_expval cs g = Ok q ->
                all_index g cs = true /\ total_count cs <> 0).
Proof.
  rewrite get_expval_closed. unfold truediv.
  split; [intros ->; reflexivity |]. split.
  - intros -> ->. reflexivity.
  - intros q. destruct (all_index g cs); [| discriminate].
    destruct (Z.eqb_spec (total_count cs) 0); [discriminate |].
    intros _. now split.
Qed.

Lemma get_expval_outcome_witness :
  get_expval [(bits "01", 0)] graph4 = Raise IndexError
  /\ get_expval [(bits "0101", 0)] graph4 = Raise ZeroDivisionError
  /\ total_count [(bits "0101", 3); (bits "0011", 1)] <> 0.
Proof.
  split; [| split].
  - apply (get_expval_outcome [(bits "01", 0)] graph4). reflexivity.
  - apply (get_expval_outcome [(bits "0101", 0)] graph4); reflexivity.
  - eapply (proj2 (proj2 (get_expval_outcome
                            [(bits "0101", 3); (bits "0011", 1)] graph4))).
    reflexivity.
Defined.

(** X6.  The iteration order of the histogram does not matter: two
    histograms with the same entries in a different order give the same
    result, value or exception. *)
Theorem get_expval_item_order (cs cs' : counts) (g : graph) :
  Permutation cs cs' -> get_expval cs g = get_expval cs' g.
Proof.
  intros Hperm. rewrite !get_expval_closed. unfold all_index.
  rewrite (forallb_Permutation _ _ _ Hperm).
  destruct (forallb _ cs'); [| reflexivity].
  unfold subscript_weighted, total_count.
  rewrite (sum_Z_Permutation _ _ (Permutation_map _ Hperm)).
  rewrite (sum_Z_Permutation _ _ (Permutation_map snd Hperm)).
  reflexivity.
Qed.

Lemma get_expval_item_order_witness :
  get_expval [(bits "0101", 3); (bits "0011", 1)] graph4
  = get_expval [(bits "0011", 1); (bits "0101", 3)] graph4.
Proof.
  apply get_expval_item_order. apply perm_swap.
Defined.

Lemma drop_zero_counts_sums (g : graph) (cs : counts) :
  subscript_weighted (drop_zero_counts cs) g = subscript_weighted cs g
  /\ total_count (drop_zero_counts cs) = total_count cs.
Proof.
  unfold subscript_weighted, total_count, drop_zero_counts, sum_Z.
  induction cs as [| [b n] cs [IHw IHt]]; [split; reflexivity |].
  cbn [filter snd]. destruct (Z.eqb_spec n 0) as [-> | Hn]; cbn [negb].
  - cbn [map fst snd fold_right]. split; lia.
  - cbn [map fst snd fold_right]. split; lia.
Qed.

(** X7.  Entries with a zero count contribute nothing: when every observed
    string can be subscripted, removing the zero-count entries leaves the
    result unchanged. *)
Theorem get_expval_drop_zero_counts (cs : counts) (g : graph) :
  all_index g cs = true ->
  get_expval (drop_zero_counts cs) g = get_expval cs g.
Proof.
  intros Hidx. rewrite !get_expval_closed, Hidx.
  assert (Hsub : all_index g (drop_zero_counts cs) = true).
  { unfold all_index, drop_zero_counts in *. rewrite forallb_forall in *.
    intros item Hin. apply filter_In in Hin as [Hin _]. now apply Hidx. }
  rewrite Hsub. destruct (drop_zero_counts_sums g cs) as [-> ->].
  reflexivity.
Qed.

Lemma get_expval_drop_zero_counts_witness :
  get_expval [(bits "0101", 3); (bits "0000", 0); (bits "0011", 1)] graph4
  = get_expval [(bits "0101", 3); (bits "0011", 1)] graph4.
Proof.
  symmetry.
  apply (get_expval_drop_zero_counts
           [(bits "0101", 3); (bits "0000", 0); (bits "0011", 1)] graph4).
  reflexivity.
Defined.

Lemma scale_counts_sums (k : Z) (g : graph) (cs : counts) :
  subscript_weighted (scale_counts k cs) g = k * subscript_weighted cs g
  /\ total_count (scale_counts k cs) = k * total_count cs
  /\ all_index g (scale_counts k cs) = all_index g cs.
Proof.
  unfold subscript_weighted, total_count, scale_counts, all_index, sum_Z.
  induction cs as [| [b n] cs (IHw & IHt & IHi)];
    [repeat split; cbn; lia |].
  cbn [map fst snd fold_right forallb]. rewrite IHw, IHt, IHi.
  repeat split; lia.
Qed.

Lemma quotient_scale (k w t : Z) :
  k <> 0 -> t <> 0 ->
  (inject_Z (k * w) / inject_Z (k * t) == inject_Z w / inject_Z t)%Q.
Proof.
  intros Hk Ht. rewrite !inject_Z_mult.
  assert (Hk' : ~ (inject_Z k == 0)%Q).
  { intros H. apply Hk. unfold Qeq in H. cbn in H. lia. }
  assert (Ht' : ~ (inject_Z t == 0)%Q).
  { intros H. apply Ht. unfold Qeq in H. cbn in H. lia. }
  field. split; assumption.
Qed.

(** X8.  Only the relative frequencies matter: multiplying every count by
    the same non-zero integer gives the same exception or an equal
    rational. *)
Theorem get_expval_scale (k : Z) (cs : counts) (g : graph) :
  k <> 0 ->
  same_outcome (get_expval (scale_counts k cs) g) (get_expval cs g).
Proof.
  intros Hk. rewrite !get_expval_closed.
  destruct (scale_counts_sums k g cs) as (-> & -> & ->).
  destruct (all_index g cs); [| reflexivity].
  unfold truediv.
  destruct (Z.eqb_spec (total_count cs) 0) as [Hz | Hnz].
  - rewrite Hz, Z.mul_0_r. reflexivity.
  - destruct (Z.eqb_spec (k * total_count cs) 0) as [Hz | _]; [nia |].
    cbn [same_outcome]. now apply quotient_scale.
Qed.

Lemma get_expval_scale_witness :
  same_outcome
    (get_expval [(bits "0101", 300); (bits "0011", 100)] graph4)
    (get_expval [(bits "0101", 3); (bits "0011", 1)] graph4).
Proof.
  apply (get_expval_scale 100 [(bits "0101", 3); (bits "0011", 1)] graph4).
  discriminate.
Defined.

Lemma subscript_cost_bounds (b : bitstring) (g : graph) :
  - Z.of_nat (List.length (edges g)) <= subscript_cost b g <= 0.
Proof.
  unfold subscript_cost, sum_Z.
  induction (edges g) as [| e es IH]; cbn [map fold_right List.length];
    [lia |].
  unfold subscript_term at 1 3. destruct (Ascii.eqb _ _); lia.
Qed.

Lemma subscript_weighted_between (g : graph) (cs : counts) :
  nonneg_counts cs = true ->
  0 <= total_count cs
  /\ - Z.of_nat (List.length (edges g)) * total_count cs
     <= subscript_weighted cs g <= 0 * total_count cs.
Proof.
  unfold nonneg_counts, subscript_weighted, total_count, sum_Z.
  induction cs as [| [b n] cs IH]; cbn [forallb map fst snd fold_right];
    [lia |].
  intros Hnn. apply andb_true_iff in Hnn as [Hn Hcs]. apply Z.leb_le in Hn.
  specialize (IH Hcs). pose proof (subscript_cost_bounds b g). nia.
Qed.

(** X9.  With non-negative counts and a positive total, on strings that can
    all be subscripted, the expectation value lies between minus the number
    of edges and zero, whatever characters and lengths the strings have. *)
Theorem get_expval_range (cs : counts) (g : graph) :
  all_index g cs = true ->
  nonneg_counts cs = true ->
  0 < total_count cs ->
  exists q,
    get_expval cs g = Ok q
    /\ (inject_Z (- Z.of_nat (List.length (edges g))) <= q <= inject_Z 0)%Q.
Proof.
  intros Hidx Hnn Htotal. rewrite get_expval_closed, Hidx. unfold truediv.
  destruct (Z.eqb_spec (total_count cs) 0) as [Hz | _]; [lia |].
  eexists. split; [reflexivity |].
  apply quotient_between; [exact Htotal |].
  apply (subscript_weighted_between g cs Hnn).
Qed.

Lemma get_expval_range_witness :
  exists q,
    get_expval [(bits "ab", 2); (bits "xx", 5)] (mkGraph [0; 1] [(0, -1)])
    = Ok q
    /\ (inject_Z (-1) <= q <= inject_Z 0)%Q.
Proof.
  apply (get_expval_range [(bits "ab", 2); (bits "xx", 5)]
                          (mkGraph [0; 1] [(0, -1)]));
    reflexivity.
Defined.

Lemma all_cost_weighted (c : Z) (g : graph) (cs : counts) :
  all_cost c g cs = true -> subscript_weighted cs g = c * total_count cs.
Proof.
  unfold all_cost, subscript_weighted, total_count, sum_Z.
  induction cs as [| [b n] cs IH]; cbn [forallb map fst snd fold_right];
    [lia |].
  intros Hall. apply andb_true_iff in Hall as [Hb Hcs].
  apply Z.eqb_eq in Hb. rewrite (IH Hcs), Hb. lia.
Qed.

(** X10.  When every observed string has the same cost, in particular when
    a single string was observed, the expectation value equals that cost,
    for every non-zero total. *)
Theorem get_expval_constant_cost (c : Z) (cs : counts) (g : graph) :
  all_index g cs = true ->
  all_cost c g cs = true ->
  total_count cs <> 0 ->
  exists q, get_expval cs g = Ok q /\ (q == inject_Z c)%Q.
Proof.
  intros Hidx Hall Htotal. rewrite get_expval_closed, Hidx. unfold truediv.
  destruct (Z.eqb_spec (total_count cs) 0) as [Hz | _]; [contradiction |].
  eexists. split; [reflexivity |].
  rewrite (all_cost_weighted _ _ _ Hall), inject_Z_mult.
  apply Qdiv_mult_l. intros H. apply Htotal.
  unfold Qeq in H. cbn in H. lia.
Qed.

Lemma get_expval_constant_cost_witness :
  exists q,
    get_expval [(bits "0101", 7); (bits "1010", 5)] graph4 = Ok q
    /\ (q == inject_Z (-4))%Q.
Proof.
  apply (get_expval_constant_cost (-4)
           [(bits "0101", 7); (bits "1010", 5)] graph4);
    [reflexivity | reflexivity | discriminate].
Defined.

(** * The printed partition *)

Lemma indices_from_In (c : ascii) (s : bitstring) :
  forall k0 k,
    In k (indices_from c k0 s)
    <-> k0 <= k < k0 + Z.of_nat (List.length s)
        /\ nth_error s (Z.to_nat (k - k0)) = Some c.
Proof.
  induction s as [| v s IH]; intros k0 k; cbn [indices_from List.length].
  - split; [intros [] | intros [Hk _]; lia].
  - assert (Htail : In k (indices_from c (k0 + 1) s)
                    <-> k0 < k < k0 + Z.of_nat (S (List.length s))
                        /\ nth_error (v :: s) (Z.to_nat (k - k0)) = Some c).
    { rewrite IH. split; intros [Hk Hnth]; (split; [lia |]).
      - replace (Z.to_nat (k - k0)) with (S (Z.to_nat (k - (k0 + 1))))
          by lia. exact Hnth.
      - replace (Z.to_nat (k - k0)) with (S (Z.to_nat (k - (k0 + 1))))
          in Hnth by lia. exact Hnth. }
    destruct (Ascii.eqb_spec v c) as [-> | Hne]; cbn [In]; rewrite Htail.
    + split.
      * intros [<- | [Hk Hnth]]; [| split; [lia | exact Hnth]].
        split; [lia |]. now rewrite Z.sub_diag.
      * intros [Hk Hnth].
        destruct (Z.eq_dec k0 k) as [-> | Hneq]; [now left | right].
        split; [lia | exact Hnth].
    + split.
      * intros [Hk Hnth]. split; [lia | exact Hnth].
      * intros [Hk Hnth]. split; [| exact Hnth].
        destruct (Z.eq_dec k0 k) as [-> | Hneq]; [| lia].
        rewrite Z.sub_diag in Hnth. cbn in Hnth. congruence.
Qed.

Lemma indices_from_bit_at (c : ascii) (s : bitstring) (k : Z) :
  In k (indices_from c 0 s)
  <-> 0 <= k < Z.of_nat (List.length s) /\ bit_at s k = c.
Proof.
  rewrite indices_from_In, Z.sub_0_r, Z.add_0_l. unfold bit_at.
  split; intros [Hk Hc]; (split; [exact Hk |]).
  - now apply nth_error_nth.
  - rewrite <- Hc. apply nth_error_nth'. lia.
Qed.

Lemma indices_from_length (s : bitstring) :
  forallb is_bit s = true ->
  forall k0,
    (List.length (indices_from "0"%char k0 s)
     + List.length (indices_from "1"%char k0 s))%nat
    = List.length s.
Proof.
  induction s as [| v s IH]; intros Hbits k0; [reflexivity |].
  cbn [forallb] in Hbits. apply andb_true_iff in Hbits as [Hv Hs].
  specialize (IH Hs (k0 + 1)). cbn [indices_from List.length].
  unfold is_bit in Hv. apply orb_true_iff in Hv as [Hv | Hv];
    apply Ascii.eqb_eq in Hv; subst v; cbn; lia.
Qed.

(** X11.  The two printed lists hold exactly the positions of the
    characters 0 and 1 of the configuration: a position is listed under 0
    (under 1) exactly when it is inside the string and the character there
    is 0 (is 1), so no position is in both, positions of any other
    character are in neither, and for a bit-string the two lists together
    have one entry per character. *)
Theorem indices_partition (s : bitstring) :
  (forall k, In k (indices_0 s)
             <-> 0 <= k < Z.of_nat (List.length s) /\ bit_at s k = "0"%char)
  /\ (forall k, In k (indices_1 s)
                <-> 0 <= k < Z.of_nat (List.length s)
                    /\ bit_at s k = "1"%char)
  /\ (forall k, ~ (In k (indices_0 s) /\ In k (indices_1 s)))
  /\ (forallb is_bit s = true ->
      (List.length (indices_0 s) + List.length (indices_1 s))%nat
      = List.length s).
Proof.
  unfold indices_0, indices_1.
  split; [intros k; apply indices_from_bit_at |].
  split; [intros k; apply indices_from_bit_at |].
  split.
  - intros k [H0 H1]. apply indices_from_bit_at in H0 as [_ H0].
    apply indices_from_bit_at in H1 as [_ H1]. congruence.
  - intros Hbits. now apply indices_from_length.
Qed.

Lemma indices_partition_witness :
  (List.length (indices_0 (bits "1010"))
   + List.length (indices_1 (bits "1010")))%nat = 4%nat
  /\ In 2 (indices_1 (bits "1010")).
Proof.
  destruct (indices_partition (bits "1010")) as (_ & H1 & _ & Hlen).
  split; [apply Hlen; reflexivity |].
  apply H1. split; [cbn; lia | reflexivity].
Defined.

Lemma mem_Z_In (k : Z) (l : list Z) : mem_Z k l = true <-> In k l.
Proof.
  unfold mem_Z. rewrite existsb_exists. split.
  - intros (x & Hin & Heq). apply Z.eqb_eq in Heq. now subst.
  - intros Hin. exists k. split; [exact Hin | apply Z.eqb_refl].
Qed.

Lemma mem_indices_from (c : ascii) (s : bitstring) (k : Z) :
  in_range (List.length s) k = true ->
  mem_Z k (indices_from c 0 s) = Ascii.eqb (bit_at s k) c.
Proof.
  intros Hk. apply in_range_spec in Hk.
  destruct (Ascii.eqb_spec (bit_at s k) c) as [Hc | Hc].
  - apply mem_Z_In, indices_from_bit_at. now split.
  - destruct (mem_Z k (indices_from c 0 s)) eqn:Hmem; [| reflexivity].
    apply mem_Z_In, indices_from_bit_at in Hmem as [_ Hmem]. contradiction.
Qed.

Lemma bit_at_is_bit (s : bitstring) (k : Z) :
  forallb is_bit s = true -> in_range (List.length s) k = true ->
  bit_at s k = "0"%char \/ bit_at s k = "1"%char.
Proof.
  intros Hbits Hk. apply in_range_spec in Hk.
  rewrite forallb_forall in Hbits.
  assert (Hin : In (bit_at s k) s) by (unfold bit_at; apply nth_In; lia).
  specialize (Hbits _ Hin). unfold is_bit in Hbits.
  apply orb_true_iff in Hbits as [H | H]; apply Ascii.eqb_eq in H; tauto.
Qed.

Lemma crossing_is_cut (s : bitstring) (e : Z * Z) :
  forallb is_bit s = true ->
  in_range (List.length s) (fst e) = true ->
  in_range (List.length s) (snd e) = true ->
  crossing (indices_0 s) (indices_1 s) e = is_cut s e.
Proof.
  intros Hbits Hi Hj. unfold crossing, is_cut, indices_0, indices_1.
  rewrite !mem_indices_from by assumption.
  destruct (bit_at_is_bit s _ Hbits Hi) as [-> | ->];
    destruct (bit_at_is_bit s _ Hbits Hj) as [-> | ->]; reflexivity.
Qed.

(** X12.  The cost of a measured bit-string is minus the number of edges
    that join the two printed lists of the configuration extracted from
    it: the partition shown to the user cuts exactly as many edges as the
    cost says. *)
Theorem maxcut_cost_counts_crossing (b : bitstring) (g : graph) :
  forallb is_bit b = true ->
  covers b g = true ->
  let s := solution_configuration b in
  maxcut_cost b g
  = Ok (- Z.of_nat (List.length
                      (filter (crossing (indices_0 s) (indices_1 s))
                              (edges g)))).
Proof.
  intros Hbits Hcov s. rewrite (maxcut_cost_cut_value _ _ Hcov).
  unfold cut_value. rewrite sum_edge_term_cut. do 4 f_equal.
  fold (solution_configuration b). fold s.
  assert (Hs : forallb is_bit s = true).
  { subst s. unfold solution_configuration, reversed.
    rewrite forallb_forall in *. intros c Hc. apply Hbits.
    now apply in_rev. }
  assert (Hlen : List.length s = List.length b)
    by (subst s; unfold solution_configuration, reversed; apply length_rev).
  apply filter_ext_in. intros e He. symmetry.
  unfold covers, covers_len in Hcov. rewrite forallb_forall in Hcov.
  specialize (Hcov e He). apply andb_true_iff in Hcov as [Hi Hj].
  rewrite <- Hlen in Hi, Hj. now apply crossing_is_cut.
Qed.

Lemma maxcut_cost_counts_crossing_witness :
  maxcut_cost (bits "0011") graph4 = Ok (-2)
  /\ indices_0 (solution_configuration (bits "0011")) = [2; 3]
  /\ indices_1 (solution_configuration (bits "0011")) = [0; 1].
Proof.
  split; [| split; reflexivity].
  rewrite (maxcut_cost_counts_crossing (bits "0011") graph4);
    reflexivity.
Defined.

(** * Reading the measured string *)

(** X13.  Position [k] of the reversed string is the character [k + 1]
    places from the right of the measured string: subscripting the
    reversed string at [k >= 0] gives what the negative subscript
    [-k - 1] gives on the original, value or [IndexError]. *)
Theorem reversed_getitem (b : bitstring) (k : Z) :
  0 <= k -> getitem (reversed b) k = getitem b (- k - 1).
Proof.
  intros Hk. unfold reversed.
  destruct (Z.ltb_spec k (Z.of_nat (List.length b))) as [Hin | Hout].
  - rewrite (getitem_indexable (rev b) k)
      by (apply indexable_spec; rewrite length_rev; lia).
    rewrite (getitem_indexable b (- k - 1)) by (apply indexable_spec; lia).
    f_equal. unfold subscript_bit. rewrite length_rev.
    destruct (Z.ltb_spec k 0) as [Hneg | _]; [lia |].
    destruct (Z.ltb_spec (- k - 1) 0) as [_ | Hpos]; [| lia].
    rewrite rev_nth by lia. f_equal. lia.
  - rewrite (getitem_not_indexable (rev b) k).
    + rewrite (getitem_not_indexable b (- k - 1)); [reflexivity |].
      apply not_true_is_false. rewrite indexable_spec. lia.
    + apply not_true_is_false. rewrite indexable_spec, length_rev. lia.
Qed.

Lemma reversed_getitem_witness :
  getitem (reversed (bits "0001")) 0 = Ok "1"%char
  /\ getitem (reversed (bits "0001")) 4 = Raise IndexError.
Proof.
  split.
  - rewrite (reversed_getitem (bits "0001") 0); [reflexivity | lia].
  - rewrite (reversed_getitem (bits "0001") 4); [reflexivity | lia].
Defined.

Lemma max_from_first (cs : counts) :
  forall best,
    exists front back,
      best :: cs = front ++ max_from best cs :: back
      /\ (forall item, In item front -> snd item < snd (max_from best cs))
      /\ (forall item, In item back -> snd item <= snd (max_from best cs)).
Proof.
  induction cs as [| item cs IH]; intros best; cbn [max_from].
  - exists [], []. repeat split; intros x [].
  - destruct (Z.ltb_spec (snd best) (snd item)) as [Hlt | Hge].
    + destruct (IH item) as (front & back & Hsplit & Hfront & Hback).
      exists (best :: front), back. split; [cbn; now rewrite Hsplit |].
      split; [| exact Hback].
      assert (Hitem : snd item <= snd (max_from item cs)).
      { assert (Hin : In item (front ++ max_from item cs :: back))
          by (rewrite <- Hsplit; now left).
        apply in_app_or in Hin as [Hin | [Heq | Hin]];
          [apply Hfront in Hin | rewrite Heq | apply Hback in Hin]; lia. }
      intros x [<- | Hx]; [lia | now apply Hfront].
    + destruct (IH best) as (front & back & Hsplit & Hfront & Hback).
      destruct front as [| b0 front].
      * cbn [app] in Hsplit. injection Hsplit as Hbest Hcs. subst back.
        exists [], (item :: cs).
        split; [cbn [app]; now rewrite <- Hbest |].
        split; [intros x [] |].
        intros x [Hx | Hx]; [subst x; now rewrite <- Hbest |].
        now apply Hback.
      * cbn [app] in Hsplit. injection Hsplit as Hb0 Hcs. subst b0.
        exists (best :: item :: front), back.
        split; [cbn [app]; now rewrite <- Hcs |].
        split; [| exact Hback].
        assert (Hbest : snd best < snd (max_from best cs))
          by (apply Hfront; now left).
        intros x [<- | [<- | Hx]]; [exact Hbest | lia |].
        apply Hfront. now right.
Qed.

(** X14.  The most probable solution is an observed string whose count no
    other count exceeds, and among equally frequent strings it is the
    first in iteration order: every entry before it has a strictly smaller
    count.  There is none exactly when the histogram is empty. *)
Theorem most_probable_first_maximum (cs : counts) :
  match most_probable cs with
  | None => cs = []
  | Some b =>
      exists n front back,
        cs = front ++ (b, n) :: back
        /\ (forall item, In item front -> snd item < n)
        /\ (forall item, In item back -> snd item <= n)
  end.
Proof.
  destruct cs as [| item cs]; cbn [most_probable]; [reflexivity |].
  destruct (max_from_first cs item) as (front & back & Hsplit & Hf & Hb).
  exists (snd (max_from item cs)), front, back.
  rewrite <- surjective_pairing. now repeat split.
Qed.

Lemma most_probable_first_maximum_witness :
  most_probable [(bits "0000", 3); (bits "0101", 5); (bits "1010", 5)]
  = Some (bits "0101")
  /\ exists n front back,
       [(bits "0000", 3); (bits "0101", 5); (bits "1010", 5)]
       = front ++ (bits "0101", n) :: back
       /\ (forall item, In item front -> snd item < n)
       /\ (forall item, In item back -> snd item <= n).
Proof.
  split; [reflexivity |].
  exact (most_probable_first_maximum
           [(bits "0000", 3); (bits "0101", 5); (bits "1010", 5)]).
Defined.

(** * Further properties of the circuit builder *)

(** X15.  [Build_QAOA] returns a circuit exactly when the graph has a
    vertex, every edge names two different qubits of the register (unless
    the layer count is zero or less, when the edges are not looked at), and
    every layer finds the angles it reads: [betas[l]] always, [gammas[l]]
    when the graph has an edge.  On an accepted graph a missing angle
    raises [IndexError]; a graph without vertices raises [CircuitError],
    and so does a rejected edge when no angle is missing. *)
Theorem Build_QAOA_index_error (g : graph) (gammas betas : list float)
  (layers : Z) :
  (forall qc,
      Build_QAOA g gammas betas layers = Ok qc
      <-> builds g layers = true
          /\ enough_angles g gammas betas layers = true
          /\ qc = mkCircuit (Z.of_nat (List.length (nodes g)))
                            (Z.of_nat (List.length (nodes g)))
                            (qaoa_description g gammas betas layers))
  /\ (builds g layers = true ->
      enough_angles g gammas betas layers = false ->
      Build_QAOA g gammas betas layers = Raise IndexError)
  /\ (enough_angles g gammas betas layers = true ->
      builds g layers = false ->
      Build_QAOA g gammas betas layers = Raise CircuitError)
  /\ (nodes g = [] -> Build_QAOA g gammas betas layers = Raise CircuitError).
Proof.
  split; [| split; [| split]].
  - intros qc. split; [apply Build_QAOA_inv |].
    intros (Hbuilds & Henough & ->).
    now rewrite (Build_QAOA_builds _ _ _ _ Hbuilds), Henough.
  - intros Hbuilds Hfew.
    now rewrite (Build_QAOA_builds _ _ _ _ Hbuilds), Hfew.
  - intros Henough Hbad.
    now rewrite (Build_QAOA_enough _ _ _ _ Henough), Hbad.
  - intros Hnone. unfold Build_QAOA. rewrite Hnone. reflexivity.
Qed.

Lemma Build_QAOA_index_error_witness :
  Build_QAOA graph4 [] [2.0%float] 1 = Raise IndexError
  /\ Build_QAOA (mkGraph [0; 1] [(0, 0)]) [1.0%float] [2.0%float] 1
     = Raise CircuitError
  /\ Build_QAOA (mkGraph [] []) [] [] 0 = Raise CircuitError
  /\ Build_QAOA (mkGraph [0; 1] []) [] [2.0%float] 1
     = Ok (mkCircuit 2 2
             [H 0; H 1; Barrier; RX 2.0%float 0; RX 2.0%float 1;
              Measure 0 0; Measure 1 1]).
Proof.
  destruct (Build_QAOA_index_error graph4 [] [2.0%float] 1)
    as (_ & Hfew & _ & _).
  destruct (Build_QAOA_index_error (mkGraph [0; 1] [(0, 0)])
              [1.0%float] [2.0%float] 1) as (_ & _ & Hloop & _).
  destruct (Build_QAOA_index_error (mkGraph [] []) [] [] 0)
    as (_ & _ & _ & Hnone).
  destruct (Build_QAOA_index_error (mkGraph [0; 1] []) [] [2.0%float] 1)
    as (Hok & _ & _ & _).
  split; [apply Hfew; reflexivity |].
  split; [apply Hloop; reflexivity |].
  split; [apply Hnone; reflexivity |].
  apply Hok. repeat split.
Defined.

Lemma flat_map_const_length {A B : Type} (f : A -> list B) (c : nat)
  (l : list A) :
  (forall x, List.length (f x) = c) ->
  List.length (flat_map f l) = (List.length l * c)%nat.
Proof.
  intros Hc. induction l as [| x l IH]; [reflexivity |].
  cbn [flat_map List.length]. rewrite length_app, Hc, IH. lia.
Qed.

Lemma range_length (n : nat) : List.length (range (Z.of_nat n)) = n.
Proof. unfold range. now rewrite length_map, length_seq, Nat2Z.id. Qed.

Lemma qaoa_layer_length (g : graph) (n : nat) (gamma beta : float) :
  List.length (qaoa_layer g (Z.of_nat n) gamma beta)
  = (List.length (edges g) * 4 + S n)%nat.
Proof.
  unfold qaoa_layer, mixer_block.
  rewrite length_app, (flat_map_const_length _ 4) by reflexivity.
  cbn [List.length]. now rewrite length_map, range_length.
Qed.

(** X16.  A circuit that [Build_QAOA] returns has one qubit and one
    classical bit per vertex and, for [N] vertices, [E] edges and [L]
    layers, exactly [2 N + L (4 E + N + 1)] operations. *)
Theorem Build_QAOA_size (g : graph) (gammas betas : list float)
  (layers : Z) (qc : circuit) :
  Build_QAOA g gammas betas layers = Ok qc ->
  num_qubits qc = Z.of_nat (List.length (nodes g))
  /\ num_clbits qc = Z.of_nat (List.length (nodes g))
  /\ List.length (data qc)
     = (2 * List.length (nodes g)
        + Z.to_nat layers
          * (4 * List.length (edges g) + List.length (nodes g) + 1))%nat.
Proof.
  intros Hrun. apply Build_QAOA_inv in Hrun as (_ & _ & ->).
  cbn [num_qubits num_clbits data].
  split; [reflexivity |]. split; [reflexivity |].
  unfold qaoa_description.
  rewrite !length_app, !length_map, range_length.
  rewrite (flat_map_const_length _
             (List.length (edges g) * 4 + S (List.length (nodes g))))
    by (intros l; apply qaoa_layer_length).
  rewrite length_seq. lia.
Qed.

Lemma Build_QAOA_size_witness :
  exists qc,
    Build_QAOA graph4 [1.0%float; 0.5%float] [2.0%float; 0.1%float] 2 = Ok qc
    /\ List.length (data qc) = 50%nat.
Proof.
  eexists. split; [vm_compute; reflexivity |].
  apply (Build_QAOA_size graph4 [1.0%float; 0.5%float]
                         [2.0%float; 0.1%float] 2).
  vm_compute. reflexivity.
Defined.

Lemma enough_angles_app (g : graph) (gammas betas xg xb : list float)
  (layers : Z) :
  enough_angles g gammas betas layers = true ->
  enough_angles g (gammas ++ xg) (betas ++ xb) layers = true.
Proof.
  unfold enough_angles. rewrite !andb_true_iff, !orb_true_iff, !Z.leb_le,
    !length_app.
  intros [[Hg | Hg] Hb]; (split; [| lia]); [now left | right; lia].
Qed.

Lemma flat_map_agree {A B : Type} (f f' : A -> list B) (l : list A) :
  (forall x, In x l -> f x = f' x) -> flat_map f l = flat_map f' l.
Proof.
  induction l as [| x l IH]; intros Hext; [reflexivity |].
  cbn [flat_map]. rewrite (Hext x) by now left.
  rewrite IH; [reflexivity |]. intros y Hy. apply Hext. now right.
Qed.

Lemma qaoa_description_app (g : graph) (gammas betas xg xb : list float)
  (layers : Z) :
  enough_angles g gammas betas layers = true ->
  qaoa_description g (gammas ++ xg) (betas ++ xb) layers
  = qaoa_description g gammas betas layers.
Proof.
  intros Henough. unfold qaoa_description. do 2 f_equal.
  apply flat_map_agree. intros l Hl. apply in_seq in Hl.
  unfold enough_angles in Henough.
  apply andb_true_iff in Henough as [Hg Hb]. apply Z.leb_le in Hb.
  unfold qaoa_layer, layer_angle.
  rewrite (app_nth1 betas) by lia. f_equal.
  apply orb_true_iff in Hg as [Hg | Hg].
  - unfold no_edges in Hg. destruct (edges g); [reflexivity | discriminate].
  - apply Z.leb_le in Hg. now rewrite (app_nth1 gammas) by lia.
Qed.

Lemma Build_QAOA_app (g : graph) (gammas betas xg xb : list float)
  (layers : Z) :
  enough_angles g gammas betas layers = true ->
  Build_QAOA g (gammas ++ xg) (betas ++ xb) layers
  = Build_QAOA g gammas betas layers.
Proof.
  intros Henough.
  rewrite (Build_QAOA_enough _ _ _ _ Henough).
  rewrite (Build_QAOA_enough _ _ _ _
             (enough_angles_app _ _ _ xg xb _ Henough)).
  now rewrite (qaoa_description_app _ _ _ xg xb _ Henough).
Qed.

(** X17.  Angles beyond the layer count are ignored: if [Build_QAOA]
    returns a circuit, it returns the same circuit when further entries are
    appended to [gammas] and to [betas]. *)
Theorem Build_QAOA_extra_angles (g : graph) (gammas betas xg xb : list float)
  (layers : Z) (qc : circuit) :
  Build_QAOA g gammas betas layers = Ok qc ->
  Build_QAOA g (gammas ++ xg) (betas ++ xb) layers = Ok qc.
Proof.
  intros Hrun. rewrite <- Hrun. apply Build_QAOA_app.
  now apply Build_QAOA_inv in Hrun as (_ & Henough & _).
Qed.

Lemma Build_QAOA_extra_angles_witness :
  Build_QAOA graph4 ([1.0%float] ++ [7.0%float])
             ([2.0%float] ++ [8.0%float; 9.0%float]) 1
  = Ok (mkCircuit 4 4 (qaoa_description graph4 [1.0%float] [2.0%float] 1)).
Proof.
  exact (Build_QAOA_extra_angles graph4 [1.0%float] [2.0%float]
           [7.0%float] [8.0%float; 9.0%float] 1
           (mkCircuit 4 4 (qaoa_description graph4 [1.0%float] [2.0%float] 1))
           ltac:(vm_compute; reflexivity)).
Defined.

(** X18.  One more layer only inserts that layer's block in front of the
    measurements: when the circuit with [L + 1] layers is returned, so is
    the one with [L] layers, and the longer one is the shorter one with
    the block of layer [L] placed between its body and its final
    measurements. *)
Theorem Build_QAOA_next_layer (g : graph) (gammas betas : list float)
  (layers : Z) (qc' : circuit) :
  0 <= layers ->
  Build_QAOA g gammas betas (layers + 1) = Ok qc' ->
  let n := Z.of_nat (List.length (nodes g)) in
  let measurements := map (fun q => Measure q q) (range n) in
  exists qc body,
    Build_QAOA g gammas betas layers = Ok qc
    /\ data qc = body ++ measurements
    /\ data qc'
       = body
         ++ qaoa_layer g n (layer_angle gammas (Z.to_nat layers))
                       (layer_angle betas (Z.to_nat layers))
         ++ measurements.
Proof.
  intros Hpos Hrun n measurements.
  apply Build_QAOA_inv in Hrun as (Hbuilds & Hnext & ->).
  assert (Hnow : enough_angles g gammas betas layers = true).
  { unfold enough_angles in *. rewrite andb_true_iff, orb_true_iff,
      !Z.leb_le in *. destruct Hnext as [[Hg | Hg] Hb];
      (split; [| lia]); [now left | right; lia]. }
  assert (Hbuilds' : builds g layers = true).
  { unfold builds in *. rewrite andb_true_iff, orb_true_iff, Z.leb_le in *.
    destruct Hbuilds as [HN [Hl | Hgood]]; [lia |].
    split; [exact HN | now right]. }
  rewrite (Build_QAOA_builds _ _ _ _ Hbuilds'), Hnow.
  eexists. eexists. split; [reflexivity |].
  cbn [data]. unfold qaoa_description. fold n. fold measurements.
  rewrite app_assoc. split; [reflexivity |].
  replace (Z.to_nat (layers + 1)) with (S (Z.to_nat layers)) by lia.
  rewrite seq_S, flat_map_app. cbn [flat_map Nat.add].
  rewrite app_nil_r, <- !app_assoc. reflexivity.
Qed.

Lemma Build_QAOA_next_layer_witness :
  exists qc body,
    Build_QAOA graph4 [1.0%float; 0.5%float] [2.0%float; 0.1%float] 1 = Ok qc
    /\ data qc = body ++ map (fun q => Measure q q) (range 4)
    /\ data (mkCircuit 4 4 (qaoa_description graph4 [1.0%float; 0.5%float]
                                             [2.0%float; 0.1%float] 2))
       = body ++ qaoa_layer graph4 4 0.5%float 0.1%float
              ++ map (fun q => Measure q q) (range 4).
Proof.
  exact (Build_QAOA_next_layer graph4 [1.0%float; 0.5%float]
           [2.0%float; 0.1%float] 1
           (mkCircuit 4 4 (qaoa_description graph4 [1.0%float; 0.5%float]
                                            [2.0%float; 0.1%float] 2))
           ltac:(lia) ltac:(vm_compute; reflexivity)).
Defined.

Lemma range_In (n q : Z) : In q (range n) -> 0 <= q < n.
Proof.
  unfold range. intros Hin. apply in_map_iff in Hin as (k & <- & Hk).
  apply in_seq in Hk. lia.
Qed.

(** X19.  On a graph whose edges join vertex positions, every operation of
    the returned circuit acts on qubits of its register only: no gate or
    measurement names a qubit below 0 or at or above the qubit count. *)
Theorem Build_QAOA_qubits_in_register (g : graph) (gammas betas : list float)
  (layers : Z) (qc : circuit) :
  valid_graph g = true ->
  Build_QAOA g gammas betas layers = Ok qc ->
  Forall (fun op => Forall (fun q => 0 <= q < num_qubits qc)
                           (instr_qubits op))
         (data qc).
Proof.
  intros Hvalid Hrun. apply Build_QAOA_inv in Hrun as (_ & _ & ->).
  cbn [num_qubits data].
  set (n := Z.of_nat (List.length (nodes g))).
  unfold valid_graph, covers_len in Hvalid. rewrite forallb_forall in Hvalid.
  apply Forall_forall. intros op Hop. unfold qaoa_description in Hop.
  fold n in Hop.
  apply in_app_or in Hop as [Hop | Hop];
    [| apply in_app_or in Hop as [Hop | Hop]].
  - apply in_map_iff in Hop as (q & <- & Hq). apply range_In in Hq.
    cbn [instr_qubits]. now repeat constructor.
  - apply in_flat_map in Hop as (l & _ & Hop). unfold qaoa_layer in Hop.
    apply in_app_or in Hop as [Hop | Hop].
    + apply in_flat_map in Hop as (ab & Hab & Hop).
      specialize (Hvalid ab Hab). apply andb_true_iff in Hvalid as [Ha Hb].
      apply in_range_spec in Ha, Hb. fold n in Ha, Hb.
      destruct (is_qubit_position n _ Ha) as [_ Hra].
      destruct (is_qubit_position n _ Hb) as [_ Hrb].
      unfold cost_block in Hop. rewrite Hra, Hrb in Hop. cbn [In] in Hop.
      destruct Hop as [<- | [<- | [<- | [<- | []]]]]; cbn [instr_qubits];
        now repeat constructor.
    + unfold mixer_block in Hop. destruct Hop as [<- | Hop];
        [constructor |].
      apply in_map_iff in Hop as (q & <- & Hq). apply range_In in Hq.
      cbn [instr_qubits]. now repeat constructor.
  - apply in_map_iff in Hop as (q & <- & Hq). apply range_In in Hq.
    cbn [instr_qubits]. now repeat constructor.
Qed.

Lemma Build_QAOA_qubits_in_register_witness :
  Forall (fun op => Forall (fun q => 0 <= q < 4) (instr_qubits op))
         (qaoa_description graph4 [1.0%float] [2.0%float] 1).
Proof.
  exact (Build_QAOA_qubits_in_register graph4 [1.0%float] [2.0%float] 1
           (mkCircuit 4 4 (qaoa_description graph4 [1.0%float] [2.0%float] 1))
           eq_refl ltac:(vm_compute; reflexivity)).
Defined.

(** * Further properties of the objective function *)

Lemma slice_bound_nonneg {A : Type} (l : list A) (k : Z) :
  0 <= k -> slice_bound l k = Z.to_nat (Z.min (Z.of_nat (List.length l)) k).
Proof.
  intros Hk. unfold slice_bound.
  destruct (Z.ltb_spec k 0); [lia | reflexivity].
Qed.

Lemma short_vector_few_angles (g : graph) (angles : list float)
  (layers : Z) :
  0 <= layers ->
  Z.of_nat (List.length angles) < 2 * layers ->
  enough_angles g (slice_to angles layers) (slice_from angles layers) layers
  = false.
Proof.
  intros Hpos Hshort. unfold enough_angles. apply andb_false_iff. right.
  apply Z.leb_gt. unfold slice_from.
  rewrite length_skipn, (slice_bound_nonneg _ _ Hpos). lia.
Qed.

(** X20.  A parameter vector with fewer than twice the layer count of
    entries never gets past [Build_QAOA]: the objective raises while the
    circuit is built, the simulator is not run, and the trace and the
    simulator state are left as they were.  On a graph that the gate
    methods accept the exception is [IndexError]. *)
Theorem run_QAOA_short_vector (Backend : Type)
  (transpile : circuit -> circuit)
  (backend_run : Backend -> circuit -> Z -> result counts * Backend)
  (f : objective) (angles : list float) (st : store Backend) :
  0 <= fn_layers f ->
  Z.of_nat (List.length angles) < 2 * fn_layers f ->
  (exists e, run_QAOA transpile backend_run f angles st = (Raise e, st))
  /\ (builds (fn_graph f) (fn_layers f) = true ->
      run_QAOA transpile backend_run f angles st = (Raise IndexError, st)).
Proof.
  intros Hpos Hshort.
  pose proof (short_vector_few_angles (fn_graph f) _ _ Hpos Hshort) as Hfew.
  unfold run_QAOA, evaluate_angles. split.
  - destruct (Build_QAOA _ _ _ _) as [qc | e] eqn:Hrun;
      [| now exists e].
    apply Build_QAOA_inv in Hrun as (_ & Henough & _). congruence.
  - intros Hbuilds.
    now rewrite (Build_QAOA_builds _ _ _ _ Hbuilds), Hfew.
Qed.

Lemma run_QAOA_short_vector_witness :
  run_QAOA (fun qc => qc) constant_backend (mkObjective graph4 100 2)
           [1.0%float; 2.0%float; 3.0%float] (mkStore [(1 # 2)%Q] tt)
  = (Raise IndexError, mkStore [(1 # 2)%Q] tt).
Proof.
  apply run_QAOA_short_vector; [cbn; lia | cbn; lia | reflexivity].
Defined.

(** X21.  Entries of the parameter vector beyond twice the layer count are
    ignored: appending them changes neither the result nor the state the
    objective leaves behind. *)
Theorem run_QAOA_long_vector (Backend : Type)
  (transpile : circuit -> circuit)
  (backend_run : Backend -> circuit -> Z -> result counts * Backend)
  (f : objective) (angles extra : list float) (st : store Backend) :
  0 <= fn_layers f ->
  2 * fn_layers f <= Z.of_nat (List.length angles) ->
  run_QAOA transpile backend_run f (angles ++ extra) st
  = run_QAOA transpile backend_run f angles st.
Proof.
  intros Hpos Hlong. unfold run_QAOA, evaluate_angles.
  set (k := Z.to_nat (fn_layers f)).
  assert (Hk : (k <= List.length angles)%nat) by lia.
  assert (Hb1 : slice_bound (angles ++ extra) (fn_layers f) = k)
    by (rewrite (slice_bound_nonneg _ _ Hpos), length_app; lia).
  assert (Hb2 : slice_bound angles (fn_layers f) = k)
    by (rewrite (slice_bound_nonneg _ _ Hpos); lia).
  unfold slice_to, slice_from. rewrite Hb1, Hb2.
  rewrite firstn_app, skipn_app.
  replace (k - List.length angles)%nat with 0%nat by lia.
  cbn [firstn skipn]. rewrite app_nil_r.
  rewrite <- (app_nil_r (firstn k angles)) at 1.
  rewrite Build_QAOA_app; [reflexivity |].
  unfold enough_angles. apply andb_true_iff. split.
  - apply orb_true_iff. right. apply Z.leb_le.
    rewrite length_firstn. lia.
  - apply Z.leb_le. rewrite length_skipn. lia.
Qed.

Lemma run_QAOA_long_vector_witness :
  run_QAOA (fun qc => qc) constant_backend (mkObjective graph4 100 1)
           [1.0%float; 2.0%float; 3.0%float] (mkStore [] tt)
  = run_QAOA (fun qc => qc) constant_backend (mkObjective graph4 100 1)
             [1.0%float; 2.0%float] (mkStore [] tt).
Proof.
  apply (run_QAOA_long_vector unit (fun qc => qc) constant_backend
           (mkObjective graph4 100 1) [1.0%float; 2.0%float] [3.0%float]);
    cbn; lia.
Defined.

(** X22.  The initial guess of [optimize_QAOA] never misses an angle: for
    every layer count, negative ones included, and every graph that the
    gate methods accept for that layer count, the two slices that
    [run_QAOA] takes from it let [Build_QAOA] return a circuit. *)
Theorem initial_guess_builds (g : graph) (layers : Z) :
  builds g layers = true ->
  exists qc,
    Build_QAOA g (slice_to (initial_guess layers) layers)
               (slice_from (initial_guess layers) layers) layers
    = Ok qc.
Proof.
  intros Hbuilds. rewrite (Build_QAOA_builds _ _ _ _ Hbuilds).
  assert (Henough : enough_angles g (slice_to (initial_guess layers) layers)
                      (slice_from (initial_guess layers) layers) layers
                    = true).
  { unfold enough_angles. apply andb_true_iff.
    destruct (Z.ltb_spec layers 0) as [Hneg | Hpos].
    - split; [apply orb_true_iff; right |]; apply Z.leb_le; lia.
    - assert (Hlen : Z.of_nat (List.length
                                 (repeat gamma_0 (Z.to_nat layers)))
                     = layers) by (rewrite repeat_length; lia).
      rewrite initial_guess_repeat.
      rewrite (slice_to_prefix _ _ _ Hlen), (slice_from_prefix _ _ _ Hlen).
      rewrite !repeat_length.
      split; [apply orb_true_iff; right |]; apply Z.leb_le; lia. }
  rewrite Henough. eexists. reflexivity.
Qed.

Lemma initial_guess_builds_witness :
  exists qc,
    Build_QAOA graph4 (slice_to (initial_guess 2) 2)
               (slice_from (initial_guess 2) 2) 2
    = Ok qc.
Proof.
  apply (initial_guess_builds graph4 2). reflexivity.
Defined.

(** * Further properties of the cost and of the readout *)

Lemma indices_from_complement (s : bitstring) :
  forall k0,
    indices_from "0"%char k0 (complement s) = indices_from "1"%char k0 s
    /\ indices_from "1"%char k0 (complement s) = indices_from "0"%char k0 s.
Proof.
  induction s as [| v s IH]; intros k0; [split; reflexivity |].
  destruct (IH (k0 + 1)) as [IH0 IH1].
  unfold complement in *. cbn [map indices_from]. rewrite IH0, IH1.
  unfold flip_bit.
  destruct (Ascii.eqb_spec v "0"%char) as [-> | H0]; [split; reflexivity |].
  destruct (Ascii.eqb_spec v "1"%char) as [-> | H1]; [split; reflexivity |].
  destruct (Ascii.eqb_spec v "0"%char); [contradiction |].
  destruct (Ascii.eqb_spec v "1"%char); [contradiction |].
  split; reflexivity.
Qed.

(** X23.  Flipping every bit of a configuration exchanges the two printed
    lists: the vertices listed under 0 become those listed under 1 and
    conversely, so a string and its complement describe the same cut. *)
Theorem indices_complement (s : bitstring) :
  indices_0 (complement s) = indices_1 s
  /\ indices_1 (complement s) = indices_0 s.
Proof. unfold indices_0, indices_1. apply indices_from_complement. Qed.

(** X24.  An edge from a vertex to itself never counts: adding a self-loop
    at a valid subscript leaves the result unchanged. *)
Theorem maxcut_cost_self_loop (b : bitstring) (ns : list Z)
  (es : list (Z * Z)) (i : Z) :
  indexable (List.length b) i = true ->
  maxcut_cost b (mkGraph ns ((i, i) :: es)) = maxcut_cost b (mkGraph ns es).
Proof.
  intros Hi. rewrite !maxcut_cost_closed. unfold indexes_all.
  cbn [edges forallb fst snd map]. rewrite Hi. cbn [andb].
  destruct (forallb _ es); [| reflexivity].
  unfold sum_Z. cbn [fold_right]. unfold subscript_term at 1.
  cbn [fst snd]. now rewrite Ascii.eqb_refl.
Qed.

Lemma maxcut_cost_self_loop_witness :
  maxcut_cost (bits "0101")
              (mkGraph [0; 1; 2; 3] [(2, 2); (0, 1); (1, 2); (2, 3); (0, 3)])
  = Ok (-4).
Proof.
  rewrite (maxcut_cost_self_loop (bits "0101") [0; 1; 2; 3]
             [(0, 1); (1, 2); (2, 3); (0, 3)] 2); reflexivity.
Defined.

(** X25.  Costs add over edge lists: when the cost is returned for two
    edge lists separately, the cost for their concatenation is the sum of
    the two, so an edge listed twice counts twice. *)
Theorem maxcut_cost_edges_app (b : bitstring) (ns1 ns2 ns : list Z)
  (es1 es2 : list (Z * Z)) (v1 v2 : Z) :
  maxcut_cost b (mkGraph ns1 es1) = Ok v1 ->
  maxcut_cost b (mkGraph ns2 es2) = Ok v2 ->
  maxcut_cost b (mkGraph ns (es1 ++ es2)) = Ok (v1 + v2).
Proof.
  rewrite !maxcut_cost_closed. unfold indexes_all. cbn [edges].
  rewrite forallb_app, map_app.
  destruct (forallb _ es1); [| discriminate].
  destruct (forallb _ es2); [| discriminate].
  intros [= <-] [= <-]. cbn [andb]. f_equal.
  unfold sum_Z. rewrite fold_right_app.
  generalize (fold_right Z.add 0 (map (subscript_term (reversed b)) es2)).
  induction (map (subscript_term (reversed b)) es1) as [| x l IH];
    intros z; cbn [fold_right]; [lia |].
  rewrite IH. lia.
Qed.

Lemma maxcut_cost_edges_app_witness :
  maxcut_cost (bits "0101") (mkGraph [] [(0, 1); (1, 2); (0, 1)]) = Ok (-3).
Proof.
  apply (maxcut_cost_edges_app (bits "0101") [] [] []
           [(0, 1); (1, 2)] [(0, 1)] (-2) (-1)); reflexivity.
Defined.
